(** * DHT11 single-wire reader of the [kodely] MakeCode extension

    A shallow embedding of [kodely.temperature] and [kodely.relativeHumidity]
    (src/main.ts) and the properties of their handshake, bit sampling,
    frame decoding and unit conversion.

    Numbers.  A TypeScript [number] is embedded as a rational [Q].  Every
    value the decoding loops build is a sum of distinct powers of two between
    [2^7] and [2^-32], so it is a dyadic rational with fewer than 53
    significant bits and the rational arithmetic is exactly what the
    floating-point arithmetic of the program computes.  The unit conversion
    (division by 100, the constant 273.15) is embedded with exact rational
    arithmetic.

    Pin.  The line is a signal [nat -> bool]: the level the [k]-th call of
    [pins.digitalReadPin] observes.  Delays are recorded in the log of pin
    operations and do not consume samples of the signal.

    Busy-wait loops carry a fuel bound per loop; a run that exhausts it is
    [None], the call has not returned. *)

From Stdlib Require Import ZArith QArith Qround Qpower Qabs List Lia Bool String.
From stdpp Require Import base list gmap.
Import ListNotations.
Open Scope Z_scope.

(** ** Numbers *)

Module Js.

Definition number := Q.

(** [2 ** e] *)
Definition pow2 (e : Z) : number := (2 ^ e)%Q.

(** ToInt32 of a finite number: truncate toward zero, wrap to 32 bits. *)
Definition trunc (x : number) : Z :=
  if Qle_bool 0 x then Qfloor x else Qceiling x.

Definition wrap32 (z : Z) : Z := (z + 2 ^ 31) mod 2 ^ 32 - 2 ^ 31.

Definition toInt32 (x : number) : Z := wrap32 (trunc x).

(** [x & m] *)
Definition bitAnd (x : number) (m : Z) : Z := Z.land (toInt32 x) (wrap32 m).

(** [x == y] between an int32 and a number *)
Definition eqNum (x : Z) (y : number) : bool := Qeq_bool (inject_Z x) y.

(** Truthiness of an array read: an index out of range reads [undefined]. *)
Definition truthy (x : option bool) : bool :=
  match x with Some b => b | None => false end.

(** [for (let i = 0; i < n; i++) s = body(i, s)], for a body without effects. *)
Definition forPure {S : Type} (n : nat) (body : nat -> S -> S) (s : S) : S :=
  fold_left (fun acc i => body i acc) (seq 0 n) s.

End Js.

Import Js.

(** ** The host pin capability *)

Definition DigitalPin := Z.

Inductive PinPullMode := PullDown | PullUp | PullNone.

Inductive TemperatureScale := Celsius | Fahrenheit | Kelvin.

(** The numeric value of the enum, which the program compares with [0] and [1]. *)
Definition scaleValue (s : TemperatureScale) : Z :=
  match s with Celsius => 0 | Fahrenheit => 1 | Kelvin => 2 end.

Inductive PinOp :=
| DigitalWritePin (pin : DigitalPin) (value : Z)
| Pause (ms : Z)
| SetPull (pin : DigitalPin) (mode : PinPullMode)
| DigitalReadPin (pin : DigitalPin) (value : Z)
| WaitMicros (us : Z).

(** A line written to the serial port: the concatenated pieces, numbers
    not yet formatted. *)
Definition SerialLine := list (string + number).

Definition Signal := nat -> bool.

Record World := mkWorld {
  signal : Signal;            (* level seen by the k-th read *)
  reads : nat;                (* reads performed so far *)
  pinOps : list PinOp;        (* pin operations, oldest first *)
  serialOut : list SerialLine (* serial lines, oldest first *)
}.

Definition init (sig : Signal) : World := mkWorld sig 0 [] [].

Definition levelValue (b : bool) : Z := if b then 1 else 0.

(** ** Execution monad: state passing, [None] when a loop runs out of fuel *)

Definition Exec (A : Type) : Type := World -> option (A * World).

Definition ret {A} (a : A) : Exec A := fun w => Some (a, w).

Definition bind {A B} (m : Exec A) (k : A -> Exec B) : Exec B :=
  fun w => match m w with
           | Some (a, w') => k a w'
           | None => None
           end.

Definition spin {A} : Exec A := fun _ => None.

Notation "x <- m ;; k" := (bind m (fun x => k))
  (at level 100, m at next level, right associativity).
Notation "m ;;; k" := (bind m (fun _ => k))
  (at level 100, right associativity).

Definition logOp (op : PinOp) : Exec unit :=
  fun w => Some (tt, mkWorld (signal w) (reads w) (pinOps w ++ [op]) (serialOut w)).

Module pins.
Definition digitalWritePin (pin : DigitalPin) (value : Z) : Exec unit :=
  logOp (DigitalWritePin pin value).

Definition setPull (pin : DigitalPin) (mode : PinPullMode) : Exec unit :=
  logOp (SetPull pin mode).

Definition digitalReadPin (pin : DigitalPin) : Exec Z :=
  fun w => let v := levelValue (signal w (reads w)) in
           Some (v, mkWorld (signal w) (S (reads w))
                            (pinOps w ++ [DigitalReadPin pin v]) (serialOut w)).
End pins.

Module basic.
Definition pause (ms : Z) : Exec unit := logOp (Pause ms).
End basic.

Module control.
Definition waitMicros (us : Z) : Exec unit := logOp (WaitMicros us).
End control.

Module serial.
Definition writeLine (s : SerialLine) : Exec unit :=
  fun w => Some (tt, mkWorld (signal w) (reads w) (pinOps w) (serialOut w ++ [s])).
End serial.

(** [while (pins.digitalReadPin(pin) == v);] *)
Fixpoint whileReadEq (fuel : nat) (pin : DigitalPin) (v : Z) : Exec unit :=
  match fuel with
  | O => spin
  | S fuel' =>
      x <- pins.digitalReadPin pin ;;
      if x =? v then whileReadEq fuel' pin v else ret tt
  end.

(** [for (let i = i0; i < i0 + n; i++) s = body(i, s)] *)
Fixpoint forFrom {S : Type} (n i : nat) (body : nat -> S -> Exec S) (s : S) : Exec S :=
  match n with
  | O => ret s
  | Datatypes.S n' => s' <- body i s ;; forFrom n' (Datatypes.S i) body s'
  end.

Definition forUpTo {S : Type} (n : nat) (body : nat -> S -> Exec S) (s : S) : Exec S :=
  forFrom n 0 body s.

(** ** The two readers, as written in src/main.ts *)

Module kodely.

(** main.ts:116-186.  [dataBits[i] = true] is with [i < 40] on the
    40-element array, always in range, where the list insert and the array
    store agree.  [dataBits[k]] is the lookup [dataBits !! k], [None] for an
    index past the end, which [truthy] takes as false like [undefined]. *)
Definition temperature (fuel : nat) (temperatureScale : TemperatureScale)
    (pin : DigitalPin) : Exec number :=
  let dataBits : list bool := [] in
  let dataBits := forPure 40 (fun _ bits => bits ++ [false]) dataBits in
  pins.digitalWritePin pin 0 ;;;
  basic.pause 18 ;;;
  pins.setPull pin PullUp ;;;
  pins.digitalReadPin pin ;;;
  control.waitMicros 40 ;;;
  ack <- pins.digitalReadPin pin ;;
  if ack =? 1 then ret (-1)%Q else
  whileReadEq fuel pin 0 ;;;
  whileReadEq fuel pin 1 ;;;
  dataBits <- forUpTo 40 (fun i dataBits =>
      whileReadEq fuel pin 1 ;;;
      whileReadEq fuel pin 0 ;;;
      control.waitMicros 28 ;;;
      x <- pins.digitalReadPin pin ;;
      ret (if x =? 1 then <[i := true]> dataBits else dataBits)) dataBits ;;
  let RHint : number := 0%Q in
  let RHdec : number := 0%Q in
  let Tint : number := 0%Q in
  let Tdec : number := 0%Q in
  let chksum : number := 0%Q in
  let RHint := forPure 8 (fun i RHint =>
      RHint + (if truthy (dataBits !! i) then pow2 (7 - Z.of_nat i) else 0))%Q RHint in
  let RHdec := forPure 16 (fun i RHdec =>
      RHdec + (if truthy (dataBits !! (i + 8)%nat) then pow2 (7 - Z.of_nat i) else 0))%Q RHdec in
  let Tint := forPure 24 (fun i Tint =>
      Tint + (if truthy (dataBits !! (i + 16)%nat) then pow2 (7 - Z.of_nat i) else 0))%Q Tint in
  let Tdec := forPure 32 (fun i Tdec =>
      Tdec + (if truthy (dataBits !! (i + 24)%nat) then pow2 (7 - Z.of_nat i) else 0))%Q Tdec in
  let chksum := forPure 40 (fun i chksum =>
      chksum + (if truthy (dataBits !! (i + 32)%nat) then pow2 (7 - Z.of_nat i) else 0))%Q chksum in
  if eqNum (bitAnd (RHint + RHdec + Tint + Tdec)%Q 255) chksum then
    ret (if scaleValue temperatureScale =? 0 then Tint + Tdec / 100
         else if scaleValue temperatureScale =? 1 then (Tint + Tdec / 100) * 9 / 5 + 32
         else (Tint + Tdec / 100) + (27315 # 100))%Q
  else
    ret (-999)%Q.

(** main.ts:194-266.  The same text up to the checksum test; the failure
    branch writes three lines to the serial port before returning. *)
Definition relativeHumidity (fuel : nat) (pin : DigitalPin) : Exec number :=
  let dataBits : list bool := [] in
  let dataBits := forPure 40 (fun _ bits => bits ++ [false]) dataBits in
  pins.digitalWritePin pin 0 ;;;
  basic.pause 18 ;;;
  pins.setPull pin PullUp ;;;
  pins.digitalReadPin pin ;;;
  control.waitMicros 40 ;;;
  ack <- pins.digitalReadPin pin ;;
  if ack =? 1 then ret (-1)%Q else
  whileReadEq fuel pin 0 ;;;
  whileReadEq fuel pin 1 ;;;
  dataBits <- forUpTo 40 (fun i dataBits =>
      whileReadEq fuel pin 1 ;;;
      whileReadEq fuel pin 0 ;;;
      control.waitMicros 28 ;;;
      x <- pins.digitalReadPin pin ;;
      ret (if x =? 1 then <[i := true]> dataBits else dataBits)) dataBits ;;
  let RHint : number := 0%Q in
  let RHdec : number := 0%Q in
  let Tint : number := 0%Q in
  let Tdec : number := 0%Q in
  let chksum : number := 0%Q in
  let RHint := forPure 8 (fun i RHint =>
      RHint + (if truthy (dataBits !! i) then pow2 (7 - Z.of_nat i) else 0))%Q RHint in
  let RHdec := forPure 16 (fun i RHdec =>
      RHdec + (if truthy (dataBits !! (i + 8)%nat) then pow2 (7 - Z.of_nat i) else 0))%Q RHdec in
  let Tint := forPure 24 (fun i Tint =>
      Tint + (if truthy (dataBits !! (i + 16)%nat) then pow2 (7 - Z.of_nat i) else 0))%Q Tint in
  let Tdec := forPure 32 (fun i Tdec =>
      Tdec + (if truthy (dataBits !! (i + 24)%nat) then pow2 (7 - Z.of_nat i) else 0))%Q Tdec in
  let chksum := forPure 40 (fun i chksum =>
      chksum + (if truthy (dataBits !! (i + 32)%nat) then pow2 (7 - Z.of_nat i) else 0))%Q chksum in
  if eqNum (bitAnd (RHint + RHdec + Tint + Tdec)%Q 255) chksum then
    ret (RHint + RHdec / 100)%Q
  else
    serial.writeLine [inl "RH-"%string; inr RHint; inl "-"%string; inr RHdec] ;;;
    serial.writeLine [inl "T-"%string; inr Tint; inl "-"%string; inr Tdec] ;;;
    serial.writeLine [inl "chk-"%string; inr chksum] ;;;
    ret (-999)%Q.

End kodely.

(** ** The components of a read

    The two readers repeat the same text; the definitions below name its
    parts.  [temperature_eq] and [relativeHumidity_eq] prove that each reader
    is the composition of these parts. *)

(** The handshake: [true] when the sensor acknowledged, [false] on the early
    return. *)
Definition handshake (fuel : nat) (pin : DigitalPin) : Exec bool :=
  pins.digitalWritePin pin 0 ;;;
  basic.pause 18 ;;;
  pins.setPull pin PullUp ;;;
  pins.digitalReadPin pin ;;;
  control.waitMicros 40 ;;;
  ack <- pins.digitalReadPin pin ;;
  if ack =? 1 then ret false else
  whileReadEq fuel pin 0 ;;;
  whileReadEq fuel pin 1 ;;;
  ret true.

(** The body of the sampling loop. *)
Definition sampleBit (fuel : nat) (pin : DigitalPin) (i : nat) (dataBits : list bool)
    : Exec (list bool) :=
  whileReadEq fuel pin 1 ;;;
  whileReadEq fuel pin 0 ;;;
  control.waitMicros 28 ;;;
  x <- pins.digitalReadPin pin ;;
  ret (if x =? 1 then <[i := true]> dataBits else dataBits).

Definition emptyFrame : list bool := forPure 40 (fun _ bits => bits ++ [false]) [].

Definition sampleBits (fuel : nat) (pin : DigitalPin) : Exec (list bool) :=
  forUpTo 40 (sampleBit fuel pin) emptyFrame.

(** Handshake and sampling: [None] on the early return, else the 40 bits. *)
Definition acquire (fuel : nat) (pin : DigitalPin) : Exec (option (list bool)) :=
  ok <- handshake fuel pin ;;
  if ok then bits <- sampleBits fuel pin ;; ret (Some bits) else ret None.

(** The five variables the packing loops compute. *)
Record SensorFrame := mkFrame {
  RHint : number;
  RHdec : number;
  Tint : number;
  Tdec : number;
  chksum : number
}.

(** [for (let i = 0; i < n; i++) acc += (dataBits[i + off] ? 2 ** (7 - i) : 0)] *)
Definition packField (dataBits : list bool) (n off : nat) : number :=
  forPure n (fun i acc =>
    acc + (if truthy (dataBits !! (i + off)%nat) then pow2 (7 - Z.of_nat i) else 0))%Q 0%Q.

Definition decode (dataBits : list bool) : SensorFrame :=
  {| RHint := packField dataBits 8 0;
     RHdec := packField dataBits 16 8;
     Tint := packField dataBits 24 16;
     Tdec := packField dataBits 32 24;
     chksum := packField dataBits 40 32 |}.

(** The array reads of one packing loop, in order: index and result. *)
Definition packReads (dataBits : list bool) (n off : nat) : list (nat * option bool) :=
  map (fun i => ((i + off)%nat, dataBits !! (i + off)%nat)) (seq 0 n).

Definition decodeReads (dataBits : list bool) : list (nat * option bool) :=
  packReads dataBits 8 0 ++ packReads dataBits 16 8 ++ packReads dataBits 24 16
  ++ packReads dataBits 32 24 ++ packReads dataBits 40 32.

(** [((RHint + RHdec + Tint + Tdec) & 255) == chksum] *)
Definition checksumOk (f : SensorFrame) : bool :=
  eqNum (bitAnd (RHint f + RHdec f + Tint f + Tdec f)%Q 255) (chksum f).

Definition toTemperature (temperatureScale : TemperatureScale) (f : SensorFrame) : number :=
  (if scaleValue temperatureScale =? 0 then Tint f + Tdec f / 100
   else if scaleValue temperatureScale =? 1 then (Tint f + Tdec f / 100) * 9 / 5 + 32
   else (Tint f + Tdec f / 100) + (27315 # 100))%Q.

Definition toHumidity (f : SensorFrame) : number := (RHint f + RHdec f / 100)%Q.

Definition temperatureOfBits (temperatureScale : TemperatureScale) (dataBits : list bool)
    : number :=
  if checksumOk (decode dataBits) then toTemperature temperatureScale (decode dataBits)
  else (-999)%Q.

Definition humidityOfBits (dataBits : list bool) : number :=
  if checksumOk (decode dataBits) then toHumidity (decode dataBits) else (-999)%Q.

Definition sameFields (f g : SensorFrame) : Prop :=
  (RHint f == RHint g /\ RHdec f == RHdec g /\ Tint f == Tint g
   /\ Tdec f == Tdec g /\ chksum f == chksum g)%Q.

(** ** The specification's data model and formulas *)

Module Spec.

(** Big-endian value of a list of bits, first bit most significant. *)
Definition bigEndian (bits : list bool) : Z :=
  fold_left (fun acc (b : bool) => 2 * acc + (if b then 1 else 0)) bits 0.

(** The [k]-th 8-bit slice of a frame. *)
Definition slice (frame : list bool) (k : nat) : list bool :=
  take 8 (drop (8 * k) frame).

Record SensorFrame := mkFrame {
  humidityInteger : Z;
  humidityFraction : Z;
  temperatureInteger : Z;
  temperatureFraction : Z;
  checksum : Z
}.

Definition pack (frame : list bool) : SensorFrame :=
  {| humidityInteger := bigEndian (slice frame 0);
     humidityFraction := bigEndian (slice frame 1);
     temperatureInteger := bigEndian (slice frame 2);
     temperatureFraction := bigEndian (slice frame 3);
     checksum := bigEndian (slice frame 4) |}.

Definition valid (f : SensorFrame) : Prop :=
  checksum f = (humidityInteger f + humidityFraction f + temperatureInteger f
                + temperatureFraction f) mod 256.

Definition celsius (tInt tFrac : number) : number := (tInt + tFrac / 100)%Q.
Definition toFahrenheit (c : number) : number := (c * (9 / 5) + 32)%Q.
Definition toKelvin (c : number) : number := (c + (27315 # 100))%Q.
Definition humidity (hInt hFrac : number) : number := (hInt + hFrac / 100)%Q.

Definition toTemperature (s : TemperatureScale) (tInt tFrac : number) : number :=
  match s with
  | Celsius => celsius tInt tFrac
  | Fahrenheit => toFahrenheit (celsius tInt tFrac)
  | Kelvin => toKelvin (celsius tInt tFrac)
  end.

End Spec.

(** ** A simulated sensor

    The reads a responsive sensor serves for a frame: one discarded read, the
    low acknowledge sample, the end of the two acknowledge pulses, then for
    each bit a low lead-in, the rise and the sampled level. *)

Definition sensorReads (frame : list bool) : list bool :=
  [true; false; true; false] ++ flat_map (fun b => [false; true; b]) frame.

Definition sensorSignal (frame : list bool) : Signal :=
  fun k => nth k (sensorReads frame) false.

(** The eight bits of a byte value, most significant first. *)
Fixpoint bitsOf (n : nat) (z : Z) : list bool :=
  match n with
  | O => []
  | S n' => Z.testbit z (Z.of_nat n') :: bitsOf n' z
  end.

Definition frameOfBytes (bs : list Z) : list bool := flat_map (bitsOf 8) bs.

(** ** Signal-level description of the busy-waits and of the sampling *)

(** [Wait sig pin v p q ops]: a busy-wait while the line reads [v], entered
    with [p] reads done, leaves with [q] reads done after the reads [ops]. *)
Inductive Wait (sig : Signal) (pin : DigitalPin) (v : Z)
    : nat -> nat -> list PinOp -> Prop :=
| Wait_exit p :
    levelValue (sig p) <> v ->
    Wait sig pin v p (S p) [DigitalReadPin pin (levelValue (sig p))]
| Wait_spin p q ops :
    levelValue (sig p) = v ->
    Wait sig pin v (S p) q ops ->
    Wait sig pin v p q (DigitalReadPin pin v :: ops).

(** [Sampling sig pin n p q bits ops]: [n] iterations of the sampling loop
    from read [p] to read [q], collecting [bits], first bit first. *)
Inductive Sampling (sig : Signal) (pin : DigitalPin)
    : nat -> nat -> nat -> list bool -> list PinOp -> Prop :=
| Sampling_done p : Sampling sig pin 0 p p [] []
| Sampling_bit n p p1 p2 q o1 o2 bits ops :
    Wait sig pin 1 p p1 o1 ->
    Wait sig pin 0 p1 p2 o2 ->
    Sampling sig pin n (S p2) q bits ops ->
    Sampling sig pin (S n) p q (sig p2 :: bits)
      (o1 ++ o2 ++ [WaitMicros 28; DigitalReadPin pin (levelValue (sig p2))] ++ ops).

(** The pin operations of the handshake up to the acknowledge sample. *)
Definition startOps (pin : DigitalPin) (first ack : bool) : list PinOp :=
  [DigitalWritePin pin 0; Pause 18; SetPull pin PullUp;
   DigitalReadPin pin (levelValue first); WaitMicros 40;
   DigitalReadPin pin (levelValue ack)].

(** A read that got past the acknowledge sample and collected [bits]. *)
Definition Served (sig : Signal) (pin : DigitalPin) (p q : nat) (bits : list bool)
    (ops : list PinOp) : Prop :=
  sig (S p) = false /\
  exists p1 p2 o1 o2 o3,
    Wait sig pin 0 (S (S p)) p1 o1 /\
    Wait sig pin 1 p1 p2 o2 /\
    Sampling sig pin 40 p2 q bits o3 /\
    ops = startOps pin (sig p) (sig (S p)) ++ o1 ++ o2 ++ o3.

(** The tail of [relativeHumidity]: convert, or report the fields and fail. *)
Definition reportHumidity (dataBits : list bool) : Exec number :=
  let f := decode dataBits in
  if checksumOk f then ret (toHumidity f)
  else
    serial.writeLine [inl "RH-"%string; inr (RHint f); inl "-"%string; inr (RHdec f)] ;;;
    serial.writeLine [inl "T-"%string; inr (Tint f); inl "-"%string; inr (Tdec f)] ;;;
    serial.writeLine [inl "chk-"%string; inr (chksum f)] ;;;
    ret (-999)%Q.

(** ** Auxiliary definitions for the statements *)

(** The world after further pin operations [ops], with [q] reads done. *)
Definition advance (w : World) (q : nat) (ops : list PinOp) : World :=
  mkWorld (signal w) q (pinOps w ++ ops) (serialOut w).

(** The loop of [packField] with integer weights: bit [i + off] has weight
    [2 ^ (n - 1 - i)]. *)
Definition packZ (dataBits : list bool) (n off : nat) : Z :=
  forPure n (fun i acc => 2 * acc + (if truthy (dataBits !! (i + off)%nat) then 1 else 0)) 0.

(** The pin operations of one sampling iteration that spun [a] times on a
    high line, [b] times on a low line and then sampled [x]. *)
Definition iterOps (pin : DigitalPin) (it : nat * nat * bool) : list PinOp :=
  repeat (DigitalReadPin pin 1) (fst (fst it)) ++ [DigitalReadPin pin 0]
  ++ repeat (DigitalReadPin pin 0) (snd (fst it)) ++ [DigitalReadPin pin 1]
  ++ [WaitMicros 28; DigitalReadPin pin (levelValue (snd it))].

(** Concrete frames. *)

(** Humidity 45.0 %, temperature 23.50 C, checksum 45 + 0 + 23 + 50 = 118. *)
Definition frameA : list bool := frameOfBytes [45; 0; 23; 50; 118].

(** Bytes 0, 0, 128, 128 and checksum (128 + 128) mod 256 = 0. *)
Definition frameB : list bool := frameOfBytes [0; 0; 128; 128; 0].

(** The same data bytes with checksum 1. *)
Definition frameC : list bool := frameOfBytes [0; 0; 128; 128; 1].

(** A frame equal to its own reversal: bytes 129, 0, 24, 0, 129. *)
Definition framePal : list bool := frameOfBytes [129; 0; 24; 0; 129].

(** The pin operations of a read served by the simulated sensor. *)
Definition sensorOps (pin : DigitalPin) (frame : list bool) : list PinOp :=
  startOps pin true false ++ [DigitalReadPin pin 1; DigitalReadPin pin 0]
  ++ flat_map (fun b : bool => [DigitalReadPin pin 0; DigitalReadPin pin 1;
                                WaitMicros 28; DigitalReadPin pin (levelValue b)]) frame.

Definition sensorWorld (pin : DigitalPin) (frame : list bool) : World :=
  mkWorld (sensorSignal frame) (4 + 3 * length frame) (sensorOps pin frame) [].

Definition outOfRange (r : nat * option bool) : bool :=
  match snd r with None => true | Some _ => false end.

(** ** Lines described by how long each wait spins *)

(** The levels one sampling iteration reads on a line that stays high for
    [a] more reads, then low, stays low for [b] more reads, then high, and
    shows [x] at the sampling read. *)
Definition iterReads (it : nat * nat * bool) : list bool :=
  repeat true (fst (fst it)) ++ [false]
  ++ repeat false (snd (fst it)) ++ [true] ++ [snd it].

(** The levels a whole read meets on a responding line: the discarded read,
    the low acknowledge sample, [a0] more low reads before the line rises,
    [b0] more high reads before it falls, then the iterations. *)
Definition linePattern (first : bool) (a0 b0 : nat) (iters : list (nat * nat * bool))
    : list bool :=
  [first; false] ++ repeat false a0 ++ [true] ++ repeat true b0 ++ [false]
  ++ flat_map iterReads iters.

(** The signal shows the levels [pat] from read [p] on. *)
Definition agrees (sig : Signal) (p : nat) (pat : list bool) : Prop :=
  forall k, (k < length pat)%nat -> sig (p + k)%nat = nth k pat false.

(** The pin operations of a read on such a line. *)
Definition lineOps (pin : DigitalPin) (first : bool) (a0 b0 : nat)
    (iters : list (nat * nat * bool)) : list PinOp :=
  startOps pin first false
  ++ repeat (DigitalReadPin pin 0) a0 ++ [DigitalReadPin pin 1]
  ++ repeat (DigitalReadPin pin 1) b0 ++ [DigitalReadPin pin 0]
  ++ flat_map (iterOps pin) iters.

(** A slow line for a frame: the acknowledge pulses take three reads each
    and every wait of the sampling loop spins once before its change. *)
Definition slowIters (frame : list bool) : list (nat * nat * bool) :=
  map (fun b : bool => (1%nat, 1%nat, b)) frame.

Definition slowSignal (frame : list bool) : Signal :=
  fun k => nth k (linePattern true 2 2 (slowIters frame)) false.

(** ** Definitions for the further properties *)

(** A pin operation that only observes the line of [pin] or lets time pass. *)
Definition quiet (pin : DigitalPin) (op : PinOp) : Prop :=
  match op with
  | DigitalReadPin p _ => p = pin
  | WaitMicros _ => True
  | _ => False
  end.

Definition isRead (op : PinOp) : bool :=
  match op with DigitalReadPin _ _ => true | _ => false end.

Definition readCount (ops : list PinOp) : nat := length (List.filter isRead ops).

(** The three lines [relativeHumidity] writes for the fields [f]. *)
Definition reportLines (f : SensorFrame) : list SerialLine :=
  [[inl "RH-"%string; inr (RHint f); inl "-"%string; inr (RHdec f)];
   [inl "T-"%string; inr (Tint f); inl "-"%string; inr (Tdec f)];
   [inl "chk-"%string; inr (chksum f)]].

(** Two worlds whose lines behave alike from now on: the [k]-th read to come
    sees the same level in both. *)
Definition sameFuture (w1 w2 : World) : Prop :=
  forall k, signal w1 (reads w1 + k)%nat = signal w2 (reads w2 + k)%nat.

(** [m] is local: from worlds with the same future it returns in both or in
    neither, with the same result, after the same pin operations, serial
    lines and number of reads, and leaves worlds with the same future. *)
Definition Local {A : Type} (m : Exec A) : Prop :=
  forall w1 w2, sameFuture w1 w2 ->
    match m w1, m w2 with
    | Some (a1, w1'), Some (a2, w2') =>
        a1 = a2 /\ sameFuture w1' w2'
        /\ exists ops lines n,
             pinOps w1' = pinOps w1 ++ ops /\ pinOps w2' = pinOps w2 ++ ops
             /\ serialOut w1' = serialOut w1 ++ lines
             /\ serialOut w2' = serialOut w2 ++ lines
             /\ reads w1' = (reads w1 + n)%nat /\ reads w2' = (reads w2 + n)%nat
    | None, None => True
    | _, _ => False
    end.

(** A line on which the simulated sensor answers every 124 reads with the
    same frame. *)
Definition repeatingSignal (frame : list bool) : Signal :=
  fun k => nth (k mod 124) (sensorReads frame) false.

(** ** The other blocks of the extension and the animation loop *)

Definition AnalogPin := Z.



Module Math.

(** [Math.round]: the nearest integer, a tie going up. *)
Definition round (x : number) : number := inject_Z (Qfloor (x + (1 # 2))).

End Math.

(** The host's [pins.map], not part of the repository: a parameter of the
    two analog readers. *)
Definition HostMap := number -> number -> number -> number -> number -> number.

(** main.ts:42-52.  [analogReadPin] is the level the host reports for each
    analog pin at the time of the call. *)
Definition lightlevel (pinsMap : HostMap) (analogReadPin : AnalogPin -> number)
    (Pin : AnalogPin) : number :=
  let lightLevel : number := 0%Q in
  let lightLevel := pinsMap (analogReadPin Pin) 0%Q 1023%Q 0%Q 100%Q in
  Math.round lightLevel.

(** main.ts:86-96. *)
Definition soilMoisture (pinsMap : HostMap) (analogReadPin : AnalogPin -> number)
    (Pin : AnalogPin) : number :=
  let moistureLevel : number := 0%Q in
  let moistureLevel := pinsMap (analogReadPin Pin) 0%Q 1023%Q 0%Q 100%Q in
  Math.round moistureLevel.

Inductive AnalogOp :=
| AnalogSetPeriod (pin : AnalogPin) (micros : Z)
| AnalogWritePin (pin : AnalogPin) (value : Z).

(** main.ts:61-69, as the analog operations the call performs, in order. *)
Definition turnLED (ledonoff : bool) (pin : AnalogPin) : list AnalogOp :=
  if ledonoff then [AnalogSetPeriod pin 100; AnalogWritePin pin 100]
  else [AnalogWritePin pin 0].



(** The analog outputs: the value last written and the period last set, per
    pin. *)
Record AnalogState := mkAnalog {
  duty : gmap Z Z;
  period : gmap Z Z
}.

Definition analogStep (st : AnalogState) (op : AnalogOp) : AnalogState :=
  match op with
  | AnalogSetPeriod p us => mkAnalog (duty st) (<[p := us]> (period st))
  | AnalogWritePin p v => mkAnalog (<[p := v]> (duty st)) (period st)
  end.

(** A sequence of [turnLED] calls, run from a state of the outputs. *)
Definition runLED (calls : list (bool * AnalogPin)) (st : AnalogState) : AnalogState :=
  fold_left (fun st c => fold_left analogStep (turnLED (fst c) (snd c)) st) calls st.

(** The argument of the last call addressed to [pin], if any. *)
Definition lastCall (pin : AnalogPin) (calls : list (bool * AnalogPin)) : option bool :=
  fold_left (fun acc c => if snd c =? pin then Some (fst c) else acc) calls None.

Definition everOn (pin : AnalogPin) (calls : list (bool * AnalogPin)) : bool :=
  existsb (fun c => fst c && (snd c =? pin)) calls.


(** Colours of the ring: [neopixel.colors(NeoPixelColors.Red)] and
    [neopixel.rgb(r, g, b)]. *)
Inductive Color :=
| colorsRed
| rgb (r g b : Z).

(** The ring as the program drives it: the colour last requested for each
    offset, and the frames latched by [show], oldest first.  What the strip
    does with an offset beyond its pixels is the host library's and is not
    modelled. *)
Record Strip := mkStrip {
  requested : gmap nat Color;
  shown : list (gmap nat Color)
}.

Definition setPixelColor (index : nat) (c : Color) (ring : Strip) : Strip :=
  mkStrip (<[index := c]> (requested ring)) (shown ring).

Definition show (ring : Strip) : Strip :=
  mkStrip (requested ring) (shown ring ++ [requested ring]).

(** main.ts:2-9: the body of [basic.forever], [index] from 0 to 8
    inclusive. *)
Definition foreverBody (ring : Strip) : Strip :=
  forPure 9 (fun index ring =>
    let ring := setPixelColor index colorsRed ring in
    let ring := show ring in
    let ring := setPixelColor index (rgb 16 16 16) ring in
    show ring) ring.

(** A frame in which at most one offset is red. *)
Definition atMostOneRed (frame : gmap nat Color) : Prop :=
  forall o1 o2, frame !! o1 = Some colorsRed -> frame !! o2 = Some colorsRed -> o1 = o2.

Definition noRed (frame : gmap nat Color) : Prop :=
  forall o, frame !! o <> Some colorsRed.

(** Linear interpolation, used to instantiate the host map. *)
Definition linearMap : HostMap :=
  fun value fromLow fromHigh toLow toHigh =>
    ((value - fromLow) * (toHigh - toLow) / (fromHigh - fromLow) + toLow)%Q.

(** One iteration of the animation loop. *)
Definition ringStep (index : nat) (ring : Strip) : Strip :=
  show (setPixelColor index (rgb 16 16 16) (show (setPixelColor index colorsRed ring))).

(** * Properties *)

(** ** The readers are compositions of the components *)

Lemma forPure_ext {S : Type} (n : nat) (f g : nat -> S -> S) (s : S) :
  (forall i acc, (i < n)%nat -> f i acc = g i acc) ->
  forPure n f s = forPure n g s.
Proof.
  unfold forPure. intros H.
  assert (G : forall l, (forall i, In i l -> (i < n)%nat) ->
            forall a, fold_left (fun acc i => f i acc) l a
                      = fold_left (fun acc i => g i acc) l a).
  { induction l as [|x l IH]; intros Hl a; simpl; [reflexivity|].
    rewrite H by (apply Hl; now left). apply IH. intros i Hi. apply Hl. now right. }
  apply G. intros i Hi. apply in_seq in Hi. lia.
Qed.

Lemma RHint_loop (dataBits : list bool) :
  forPure 8 (fun i acc =>
    acc + (if truthy (dataBits !! i) then pow2 (7 - Z.of_nat i) else 0))%Q 0%Q
  = packField dataBits 8 0.
Proof.
  unfold packField. apply forPure_ext. intros i acc _.
  now rewrite Nat.add_0_r.
Qed.

Ltac exec_unfold :=
  unfold acquire, handshake, sampleBits, sampleBit, emptyFrame;
  cbv beta zeta;
  unfold bind, pins.digitalWritePin, basic.pause, pins.setPull, control.waitMicros,
    serial.writeLine, logOp, pins.digitalReadPin, ret;
  cbv beta iota zeta; cbn [signal reads pinOps serialOut].

Ltac exec_step :=
  match goal with
  | |- context [if levelValue ?b =? 1 then _ else _] => destruct (levelValue b =? 1)
  | |- context [match whileReadEq ?f ?p ?v ?w with _ => _ end] =>
      destruct (whileReadEq f p v w) as [[[] ?]|]
  | |- context [match forUpTo ?n ?b ?s ?w with _ => _ end] =>
      destruct (forUpTo n b s w) as [[? ?]|]
  end;
  cbv beta;
  try lazymatch goal with
      | |- Some _ = Some _ => reflexivity
      | |- None = None => reflexivity
      end.

Lemma temperature_eq (fuel : nat) (s : TemperatureScale) (pin : DigitalPin) (w : World) :
  kodely.temperature fuel s pin w
  = (r <- acquire fuel pin ;;
     ret (match r with
          | None => (-1)%Q
          | Some bits => temperatureOfBits s bits
          end)) w.
Proof.
  unfold kodely.temperature. exec_unfold.
  do 4 exec_step.
  unfold temperatureOfBits, toTemperature, checksumOk, decode.
  cbn [RHint RHdec Tint Tdec chksum].
  rewrite <- RHint_loop. unfold packField.
  match goal with |- context [eqNum ?a ?b] => destruct (eqNum a b) end; reflexivity.
Qed.

Lemma relativeHumidity_eq (fuel : nat) (pin : DigitalPin) (w : World) :
  kodely.relativeHumidity fuel pin w
  = (r <- acquire fuel pin ;;
     match r with
     | None => ret (-1)%Q
     | Some bits => reportHumidity bits
     end) w.
Proof.
  unfold kodely.relativeHumidity, reportHumidity. exec_unfold.
  do 4 exec_step.
  unfold toHumidity, checksumOk, decode.
  cbn [RHint RHdec Tint Tdec chksum].
  rewrite <- RHint_loop. unfold packField.
  match goal with |- context [eqNum ?a ?b] => destruct (eqNum a b) end; reflexivity.
Qed.

(** ** Busy-waits *)

Lemma advance_advance (w : World) (p q : nat) (o1 o2 : list PinOp) :
  advance (advance w p o1) q o2 = advance w q (o1 ++ o2).
Proof. unfold advance; cbn. now rewrite app_assoc. Qed.

Lemma Wait_lt sig pin v p q ops : Wait sig pin v p q ops -> (p < q)%nat.
Proof. induction 1; lia. Qed.

Lemma whileReadEq_Wait (fuel : nat) (pin : DigitalPin) (v : Z) :
  forall (w w' : World) (u : unit),
    whileReadEq fuel pin v w = Some (u, w') ->
    exists q ops, Wait (signal w) pin v (reads w) q ops /\ w' = advance w q ops.
Proof.
  induction fuel as [|fuel IH]; intros w w' u H; [discriminate|].
  cbn [whileReadEq] in H. unfold bind, pins.digitalReadPin in H. cbv zeta in H.
  destruct (levelValue (signal w (reads w)) =? v) eqn:E.
  - apply Z.eqb_eq in E. apply IH in H. cbn [signal reads] in H.
    destruct H as [q [ops [HW ->]]]. exists q, (DigitalReadPin pin v :: ops). split.
    + now apply Wait_spin.
    + rewrite E. unfold advance; cbn. now rewrite <- app_assoc.
  - apply Z.eqb_neq in E. unfold ret in H. injection H as _ <-.
    eexists _, _. split; [now apply Wait_exit|reflexivity].
Qed.

Lemma Wait_whileReadEq sig pin v p q ops :
  Wait sig pin v p q ops ->
  forall (fuel : nat) (w : World),
    signal w = sig -> reads w = p -> (q - p <= fuel)%nat ->
    whileReadEq fuel pin v w = Some (tt, advance w q ops).
Proof.
  induction 1 as [p Hp|p q ops Hp HW IH]; intros fuel w Hs Hr Hf.
  - destruct fuel as [|fuel]; [lia|].
    cbn [whileReadEq]. unfold bind, pins.digitalReadPin. cbv zeta.
    rewrite Hs, Hr. apply Z.eqb_neq in Hp. rewrite Hp.
    unfold ret, advance. now rewrite Hs.
  - pose proof (Wait_lt _ _ _ _ _ _ HW) as Hlt.
    destruct fuel as [|fuel]; [lia|].
    cbn [whileReadEq]. unfold bind, pins.digitalReadPin. cbv zeta.
    rewrite Hs, Hr. rewrite Hp, Z.eqb_refl.
    rewrite IH by (cbn; lia || reflexivity).
    unfold advance; cbn. now rewrite <- app_assoc, Hs.
Qed.

(** On a line that keeps the awaited-against level the loop exhausts any fuel. *)
Lemma whileReadEq_spins (fuel : nat) (pin : DigitalPin) (v : Z) :
  forall w : World,
    (forall k, levelValue (signal w (reads w + k)%nat) = v) ->
    whileReadEq fuel pin v w = None.
Proof.
  induction fuel as [|fuel IH]; intros w H; [reflexivity|].
  cbn [whileReadEq]. unfold bind, pins.digitalReadPin. cbv zeta.
  pose proof (H 0%nat) as H0. rewrite Nat.add_0_r in H0. rewrite H0, Z.eqb_refl.
  apply IH. cbn [signal reads]. intros k.
  specialize (H (S k)). now rewrite Nat.add_succ_r in H.
Qed.

(** A level change ahead ends the wait. *)
Lemma Wait_of_change sig pin v :
  forall (k p : nat),
    levelValue (sig (p + k)%nat) <> v ->
    exists q ops, Wait sig pin v p q ops /\ (q <= S (p + k))%nat.
Proof.
  induction k as [|k IH]; intros p H.
  - rewrite Nat.add_0_r in H. exists (S p). eexists. split; [now apply Wait_exit|lia].
  - destruct (Z.eq_dec (levelValue (sig p)) v) as [E|E].
    + destruct (IH (S p)) as [q [ops [HW Hq]]].
      { now replace (S p + k)%nat with (p + S k)%nat by lia. }
      exists q. eexists. split; [now apply Wait_spin; eauto|lia].
    + exists (S p). eexists. split; [now apply Wait_exit|lia].
Qed.

Lemma Wait_change sig pin v p q ops :
  Wait sig pin v p q ops ->
  levelValue (sig (q - 1)%nat) <> v
  /\ forall k, (p <= k < q - 1)%nat -> levelValue (sig k) = v.
Proof.
  induction 1 as [p Hp|p q ops Hp HW [IH1 IH2]].
  - replace (S p - 1)%nat with p by lia. split; [assumption|intros; lia].
  - split; [assumption|]. intros k Hk.
    destruct (Nat.eq_dec k p) as [->|]; [assumption|apply IH2; lia].
Qed.

(** ** The sampling loop *)

Lemma emptyFrame_eq : emptyFrame = repeat false 40.
Proof. reflexivity. Qed.

Lemma Sampling_le sig pin n p q bits ops :
  Sampling sig pin n p q bits ops -> (p <= q)%nat.
Proof.
  induction 1 as [|n p p1 p2 q o1 o2 bits ops H1 H2 _ IH]; [lia|].
  apply Wait_lt in H1, H2. lia.
Qed.

Lemma Sampling_length sig pin n p q bits ops :
  Sampling sig pin n p q bits ops -> length bits = n.
Proof. induction 1; cbn; congruence. Qed.

(** Storing the sampled level in a slot that still holds [false]. *)
Lemma store_sample (done rest : list bool) (b : bool) :
  (if levelValue b =? 1 then <[length done := true]> (done ++ false :: rest)
   else done ++ false :: rest)
  = (done ++ [b]) ++ rest.
Proof.
  rewrite <- app_assoc. destruct b; cbn [levelValue Z.eqb Pos.eqb app]; [|reflexivity].
  rewrite insert_app_r_alt by lia. now rewrite Nat.sub_diag.
Qed.

Lemma sampleBit_inv (fuel : nat) (pin : DigitalPin) (done rest bits' : list bool)
    (w w' : World) :
  sampleBit fuel pin (length done) (done ++ false :: rest) w = Some (bits', w') ->
  exists p1 p2 o1 o2,
    Wait (signal w) pin 1 (reads w) p1 o1 /\
    Wait (signal w) pin 0 p1 p2 o2 /\
    bits' = (done ++ [signal w p2]) ++ rest /\
    w' = advance w (S p2)
           (o1 ++ o2 ++ [WaitMicros 28; DigitalReadPin pin (levelValue (signal w p2))]).
Proof.
  unfold sampleBit, bind. intros H.
  destruct (whileReadEq fuel pin 1 w) as [[u1 w1]|] eqn:E1; [|discriminate].
  destruct (whileReadEq fuel pin 0 w1) as [[u2 w2]|] eqn:E2; [|discriminate].
  apply whileReadEq_Wait in E1. destruct E1 as [p1 [o1 [W1 ->]]].
  apply whileReadEq_Wait in E2. destruct E2 as [p2 [o2 [W2 ->]]].
  cbn [advance signal reads] in *.
  unfold control.waitMicros, logOp, pins.digitalReadPin, ret in H.
  cbv zeta in H. cbn [advance signal reads pinOps serialOut] in H.
  injection H as <- <-.
  exists p1, p2, o1, o2. repeat split; try assumption.
  - apply store_sample.
  - unfold advance; cbn. f_equal. now rewrite <- !app_assoc.
Qed.

Lemma forFrom_Sampling (fuel : nat) (pin : DigitalPin) :
  forall (n : nat) (done : list bool) (w : World) (bits' : list bool) (w' : World),
    forFrom n (length done) (sampleBit fuel pin) (done ++ repeat false n) w
      = Some (bits', w') ->
    exists q bits ops,
      Sampling (signal w) pin n (reads w) q bits ops
      /\ bits' = done ++ bits
      /\ w' = advance w q ops.
Proof.
  induction n as [|n IH]; intros done w bits' w' H.
  - cbn in H. unfold ret in H. injection H as <- <-.
    exists (reads w), [], []. split; [constructor|]. split; [reflexivity|].
    unfold advance. rewrite app_nil_r. now destruct w.
  - cbn [forFrom repeat] in H. unfold bind at 1 in H.
    destruct (sampleBit fuel pin (length done) (done ++ false :: repeat false n) w)
      as [[b1 w1]|] eqn:E; [|discriminate].
    apply sampleBit_inv in E.
    destruct E as [p1 [p2 [o1 [o2 [W1 [W2 [-> ->]]]]]]].
    replace (S (length done)) with (length (done ++ [signal w p2])) in H
      by (rewrite length_app; cbn; lia).
    apply IH in H. cbn [advance signal reads] in H.
    destruct H as [q [bits [ops [HS [-> ->]]]]].
    exists q, (signal w p2 :: bits). eexists. split; [|split].
    + eapply Sampling_bit; eauto.
    + now rewrite <- app_assoc.
    + rewrite advance_advance. now rewrite <- !app_assoc.
Qed.

Lemma Sampling_forFrom sig pin n p q bits ops :
  Sampling sig pin n p q bits ops ->
  forall (fuel : nat) (done : list bool) (w : World),
    signal w = sig -> reads w = p -> (q - p <= fuel)%nat ->
    forFrom n (length done) (sampleBit fuel pin) (done ++ repeat false n) w
      = Some (done ++ bits, advance w q ops).
Proof.
  induction 1 as [p|n p p1 p2 q o1 o2 bits ops W1 W2 HS IH];
    intros fuel done w Hs Hr Hf.
  - cbn. unfold ret, advance. rewrite !app_nil_r, <- Hr. now destruct w.
  - pose proof (Wait_lt _ _ _ _ _ _ W1). pose proof (Wait_lt _ _ _ _ _ _ W2).
    pose proof (Sampling_le _ _ _ _ _ _ _ HS).
    cbn [forFrom repeat]. unfold bind at 1. unfold sampleBit at 1. unfold bind.
    rewrite (Wait_whileReadEq _ _ _ _ _ _ W1) by (assumption || lia).
    rewrite (Wait_whileReadEq _ _ _ _ _ _ W2) by (cbn; assumption || lia).
    unfold control.waitMicros, logOp, pins.digitalReadPin, ret. cbv zeta.
    cbn [advance signal reads pinOps serialOut]. rewrite Hs.
    rewrite store_sample.
    replace (S (length done)) with (length (done ++ [sig p2]))
      by (rewrite length_app; cbn; lia).
    rewrite IH by (cbn; assumption || lia || reflexivity).
    rewrite <- app_assoc. cbn [app]. do 2 f_equal.
    unfold advance; cbn. rewrite Hs. f_equal. now rewrite <- !app_assoc.
Qed.

(** ** Handshake and acquisition *)


Lemma acquire_noResponse (fuel : nat) (pin : DigitalPin) (w : World) :
  signal w (S (reads w)) = true ->
  acquire fuel pin w
  = Some (None, advance w (S (S (reads w))) (startOps pin (signal w (reads w)) true)).
Proof.
  intros H. exec_unfold. rewrite H. cbn [levelValue Z.eqb Pos.eqb].
  unfold advance, startOps. rewrite <- !app_assoc. reflexivity.
Qed.

Lemma acquire_inv (fuel : nat) (pin : DigitalPin) (w w' : World)
    (r : option (list bool)) :
  acquire fuel pin w = Some (r, w') ->
  (r = None /\ signal w (S (reads w)) = true
   /\ w' = advance w (S (S (reads w))) (startOps pin (signal w (reads w)) true))
  \/ (exists bits q ops,
        r = Some bits /\ Served (signal w) pin (reads w) q bits ops
        /\ w' = advance w q ops).
Proof.
  destruct (signal w (S (reads w))) eqn:Hack.
  - rewrite acquire_noResponse by assumption. intros H. injection H as <- <-.
    left. auto.
  - intros H. right. unfold acquire, bind, handshake, bind in H.
    unfold pins.digitalWritePin, basic.pause, pins.setPull, control.waitMicros,
      logOp, pins.digitalReadPin in H.
    cbv zeta in H. cbn [signal reads pinOps serialOut] in H.
    rewrite Hack in H. cbn [levelValue Z.eqb] in H.
    match type of H with context [whileReadEq fuel pin 0 ?x] =>
      destruct (whileReadEq fuel pin 0 x) as [[u1 w1]|] eqn:E1; [|discriminate] end.
    destruct (whileReadEq fuel pin 1 w1) as [[u2 w2]|] eqn:E2; [|discriminate].
    unfold ret in H.
    destruct (sampleBits fuel pin w2) as [[bits w3]|] eqn:E3; [|discriminate].
    injection H as <- <-.
    apply whileReadEq_Wait in E1. destruct E1 as [p1 [o1 [W1 ->]]].
    apply whileReadEq_Wait in E2. destruct E2 as [p2 [o2 [W2 ->]]].
    unfold sampleBits, forUpTo in E3. rewrite emptyFrame_eq in E3.
    apply (forFrom_Sampling fuel pin 40 []) in E3.
    destruct E3 as [q [bs [o3 [HS [-> ->]]]]].
    cbn [advance signal reads pinOps serialOut] in *.
    exists bs, q, (startOps pin (signal w (reads w)) false ++ o1 ++ o2 ++ o3).
    split; [reflexivity|]. split.
    + split; [assumption|]. exists p1, p2, o1, o2, o3. rewrite Hack. auto.
    + unfold advance, startOps; cbn. f_equal. now rewrite <- !app_assoc.
Qed.

Lemma Served_acquire sig pin p q bits ops :
  Served sig pin p q bits ops ->
  forall (fuel : nat) (w : World),
    signal w = sig -> reads w = p -> (q <= fuel)%nat ->
    acquire fuel pin w = Some (Some bits, advance w q ops).
Proof.
  intros [Hack [p1 [p2 [o1 [o2 [o3 [W1 [W2 [HS ->]]]]]]]]] fuel w Hs Hr Hf.
  pose proof (Wait_lt _ _ _ _ _ _ W1). pose proof (Wait_lt _ _ _ _ _ _ W2).
  pose proof (Sampling_le _ _ _ _ _ _ _ HS).
  unfold acquire, bind, handshake, bind.
  unfold pins.digitalWritePin, basic.pause, pins.setPull, control.waitMicros,
    logOp, pins.digitalReadPin.
  cbv zeta. cbn [signal reads pinOps serialOut].
  rewrite Hs, Hr, Hack. cbn [levelValue Z.eqb].
  rewrite (Wait_whileReadEq _ _ _ _ _ _ W1) by (cbn; reflexivity || lia).
  rewrite (Wait_whileReadEq _ _ _ _ _ _ W2) by (cbn; reflexivity || lia).
  unfold ret, sampleBits, forUpTo. rewrite emptyFrame_eq.
  rewrite (Sampling_forFrom _ _ _ _ _ _ _ HS fuel []) by (cbn; reflexivity || lia).
  cbn [app]. do 2 f_equal.
  unfold advance, startOps; cbn. rewrite Hs. f_equal. now rewrite <- !app_assoc.
Qed.

Lemma Served_length sig pin p q bits ops :
  Served sig pin p q bits ops -> length bits = 40%nat.
Proof.
  intros [_ [p1 [p2 [o1 [o2 [o3 [_ [_ [HS _]]]]]]]]].
  exact (Sampling_length _ _ _ _ _ _ _ HS).
Qed.

(** ** The packing loops *)

Lemma forPure_S {S : Type} (n : nat) (body : nat -> S -> S) (s : S) :
  forPure (Datatypes.S n) body s = body n (forPure n body s).
Proof. unfold forPure. now rewrite seq_S, fold_left_app. Qed.

Lemma packField_S (dataBits : list bool) (n off : nat) :
  packField dataBits (S n) off
  = (packField dataBits n off
     + (if truthy (dataBits !! (n + off)%nat) then pow2 (7 - Z.of_nat n) else 0))%Q.
Proof. unfold packField. now rewrite forPure_S. Qed.

Lemma packZ_S (dataBits : list bool) (n off : nat) :
  packZ dataBits (S n) off
  = 2 * packZ dataBits n off + (if truthy (dataBits !! (n + off)%nat) then 1 else 0).
Proof. unfold packZ. now rewrite forPure_S. Qed.

Lemma pow2_nonzero (e : Z) : ~ (pow2 e == 0)%Q.
Proof. unfold pow2. apply Qpower_not_0. discriminate. Qed.

Lemma pow2_succ (e : Z) : (pow2 (1 + e) == 2 * pow2 e)%Q.
Proof. unfold pow2. rewrite Qpower_plus by discriminate. reflexivity. Qed.

(** A packed field is its integer value scaled by the weight of the last bit. *)
Lemma packField_packZ (dataBits : list bool) (n off : nat) :
  (packField dataBits n off == inject_Z (packZ dataBits n off) * pow2 (8 - Z.of_nat n))%Q.
Proof.
  induction n as [|n IH].
  - unfold packField, packZ, forPure. cbn. reflexivity.
  - rewrite packField_S, packZ_S, IH.
    replace (8 - Z.of_nat n) with (1 + (7 - Z.of_nat n)) by lia.
    replace (8 - Z.of_nat (S n)) with (7 - Z.of_nat n) by lia.
    rewrite pow2_succ, inject_Z_plus, inject_Z_mult.
    destruct (truthy (dataBits !! (n + off)%nat)); cbn [inject_Z]; ring.
Qed.

Lemma packZ_bounds (dataBits : list bool) (n off : nat) :
  0 <= packZ dataBits n off < 2 ^ Z.of_nat n.
Proof.
  induction n as [|n IH].
  - unfold packZ, forPure. cbn. lia.
  - rewrite packZ_S, Nat2Z.inj_succ, Z.pow_succ_r by lia.
    destruct (truthy (dataBits !! (n + off)%nat)); lia.
Qed.

Lemma packZ_inj (a b : list bool) (n off : nat) :
  packZ a n off = packZ b n off ->
  forall i, (i < n)%nat -> truthy (a !! (i + off)%nat) = truthy (b !! (i + off)%nat).
Proof.
  induction n as [|n IH]; intros H i Hi; [lia|].
  rewrite !packZ_S in H.
  assert (packZ a n off = packZ b n off
          /\ truthy (a !! (n + off)%nat) = truthy (b !! (n + off)%nat)) as [H1 H2].
  { destruct (truthy (a !! (n + off)%nat)), (truthy (b !! (n + off)%nat));
      split; (reflexivity || lia). }
  destruct (Nat.eq_dec i n) as [->|]; [assumption|apply IH; [assumption|lia]].
Qed.

Lemma packField_inj (a b : list bool) (n off : nat) :
  (packField a n off == packField b n off)%Q ->
  forall i, (i < n)%nat -> truthy (a !! (i + off)%nat) = truthy (b !! (i + off)%nat).
Proof.
  rewrite !packField_packZ, Qmult_inj_r by apply pow2_nonzero.
  rewrite inject_Z_injective. apply packZ_inj.
Qed.

(** Reads past the end of the frame add nothing. *)
Lemma packField_past_end (dataBits : list bool) (n m off : nat) :
  (length dataBits <= n + off)%nat ->
  packField dataBits (n + m) off = packField dataBits n off.
Proof.
  intros H. induction m as [|m IH]; [now rewrite Nat.add_0_r|].
  rewrite Nat.add_succ_r, packField_S, IH.
  rewrite (lookup_ge_None_2 dataBits) by lia. cbn [truthy].
  unfold Qplus; cbn. rewrite Z.mul_1_r, Z.add_0_r, Pos.mul_1_r.
  now destruct (packField dataBits n off).
Qed.

Lemma truthy_lookup_eq (a b : list bool) :
  length a = length b ->
  (forall i, (i < length a)%nat -> truthy (a !! i) = truthy (b !! i)) ->
  a = b.
Proof.
  intros Hl H. apply list_eq. intros i.
  destruct (Nat.lt_ge_cases i (length a)) as [Hi|Hi].
  - specialize (H i Hi).
    destruct (lookup_lt_is_Some_2 a i Hi) as [x Hx].
    destruct (lookup_lt_is_Some_2 b i ltac:(lia)) as [y Hy].
    rewrite Hx, Hy in *. cbn in H. now subst.
  - rewrite !lookup_ge_None_2 by lia. reflexivity.
Qed.

(** Decoding is injective on 40-bit frames. *)
Lemma decode_inj (a b : list bool) :
  length a = 40%nat -> length b = 40%nat ->
  sameFields (decode a) (decode b) -> a = b.
Proof.
  intros Ha Hb (H1 & H2 & H3 & _ & _). cbn [decode RHint RHdec Tint] in *.
  apply truthy_lookup_eq; [congruence|]. intros i Hi. rewrite Ha in Hi.
  destruct (Nat.lt_ge_cases i 8) as [L1|L1].
  { pose proof (packField_inj a b 8 0 H1 i L1) as E. now rewrite Nat.add_0_r in E. }
  destruct (Nat.lt_ge_cases i 24) as [L2|L2].
  { pose proof (packField_inj a b 16 8 H2 (i - 8)%nat ltac:(lia)) as E.
    now replace (i - 8 + 8)%nat with i in E by lia. }
  pose proof (packField_inj a b 24 16 H3 (i - 16)%nat ltac:(lia)) as E.
  now replace (i - 16 + 16)%nat with i in E by lia.
Qed.

Lemma packField_nonneg (dataBits : list bool) (n off : nat) :
  (0 <= packField dataBits n off)%Q.
Proof.
  rewrite packField_packZ. apply Qmult_le_0_compat.
  - change 0%Q with (inject_Z 0). rewrite <- Zle_Qle. apply packZ_bounds.
  - apply Qlt_le_weak. unfold pow2. now apply Qpower_0_lt.
Qed.

(** Readings are not negative, so a reading is never one of the sentinels. *)
Lemma toTemperature_nonneg (s : TemperatureScale) (bits : list bool) :
  (0 <= toTemperature s (decode bits))%Q.
Proof.
  pose proof (packField_nonneg bits 24 16) as H1.
  pose proof (packField_nonneg bits 32 24) as H2.
  assert (H : (0 <= Tint (decode bits) + Tdec (decode bits) / 100)%Q).
  { cbn [decode Tint Tdec].
    rewrite <- (Qplus_0_r 0). apply Qplus_le_compat; [assumption|].
    apply Qle_shift_div_l; [reflexivity|]. now rewrite Qmult_0_l. }
  unfold toTemperature.
  destruct s; cbn [scaleValue Z.eqb Pos.eqb]; [assumption| |].
  - rewrite <- (Qplus_0_r 0). apply Qplus_le_compat; [|discriminate].
    apply Qle_shift_div_l; [reflexivity|]. rewrite Qmult_0_l.
    apply Qmult_le_0_compat; [assumption|discriminate].
  - rewrite <- (Qplus_0_r 0). apply Qplus_le_compat; [assumption|discriminate].
Qed.

Lemma toHumidity_nonneg (bits : list bool) : (0 <= toHumidity (decode bits))%Q.
Proof.
  pose proof (packField_nonneg bits 8 0) as H1.
  pose proof (packField_nonneg bits 16 8) as H2.
  unfold toHumidity. cbn [decode RHint RHdec].
  rewrite <- (Qplus_0_r 0). apply Qplus_le_compat; [assumption|].
  apply Qle_shift_div_l; [reflexivity|]. now rewrite Qmult_0_l.
Qed.

Lemma nonneg_not_sentinel (x : number) :
  (0 <= x)%Q -> ~ (x == -1)%Q /\ ~ (x == -999)%Q.
Proof.
  intros H. split; intros E; rewrite E in H; now apply H.
Qed.

(** ** The packed fields in terms of the five byte slices *)

Lemma packZ_split (dataBits : list bool) (n m off : nat) :
  packZ dataBits (n + m) off
  = 2 ^ Z.of_nat m * packZ dataBits n off + packZ dataBits m (off + n).
Proof.
  induction m as [|m IH].
  - rewrite Nat.add_0_r. unfold packZ at 3, forPure. cbn. lia.
  - rewrite Nat.add_succ_r, !packZ_S, IH, Nat2Z.inj_succ, Z.pow_succ_r by lia.
    replace (n + m + off)%nat with (m + (off + n))%nat by lia. ring.
Qed.

Lemma bigEndian_snoc (bits : list bool) (b : bool) :
  Spec.bigEndian (bits ++ [b]) = 2 * Spec.bigEndian bits + (if b then 1 else 0).
Proof. unfold Spec.bigEndian. now rewrite fold_left_app. Qed.

Lemma packZ_bigEndian (dataBits : list bool) (n off : nat) :
  (off + n <= length dataBits)%nat ->
  packZ dataBits n off = Spec.bigEndian (take n (drop off dataBits)).
Proof.
  induction n as [|n IH]; intros H.
  - reflexivity.
  - destruct (lookup_lt_is_Some_2 dataBits (n + off)%nat ltac:(lia)) as [x Hx].
    rewrite packZ_S, Hx, IH by lia. cbn [truthy].
    rewrite (take_S_r _ _ x), bigEndian_snoc; [reflexivity|].
    rewrite lookup_drop. now rewrite Nat.add_comm.
Qed.

Lemma packZ_slice (frame : list bool) (k : nat) :
  (8 * k + 8 <= length frame)%nat ->
  packZ frame 8 (8 * k) = Spec.bigEndian (Spec.slice frame k).
Proof. intros H. now rewrite packZ_bigEndian by lia. Qed.

(** What the five loops compute on a 40-bit frame: the first and the last
    field are their byte; the three in between also take in the bytes that
    follow, as a fraction. *)
Lemma decode_slices (frame : list bool) :
  length frame = 40%nat ->
  let s := Spec.pack frame in
  let hI := inject_Z (Spec.humidityInteger s) in
  let hF := inject_Z (Spec.humidityFraction s) in
  let tI := inject_Z (Spec.temperatureInteger s) in
  let tF := inject_Z (Spec.temperatureFraction s) in
  let ck := inject_Z (Spec.checksum s) in
  (RHint (decode frame) == hI
   /\ RHdec (decode frame) == hF + tI / 256
   /\ Tint (decode frame) == tI + tF / 256 + ck / 65536
   /\ Tdec (decode frame) == tF + ck / 256
   /\ chksum (decode frame) == ck)%Q.
Proof.
  intros H. cbn zeta. unfold Spec.pack, decode.
  cbn [RHint RHdec Tint Tdec chksum Spec.humidityInteger Spec.humidityFraction
       Spec.temperatureInteger Spec.temperatureFraction Spec.checksum].
  rewrite <- (packZ_slice frame 0), <- (packZ_slice frame 1), <- (packZ_slice frame 2),
    <- (packZ_slice frame 3), <- (packZ_slice frame 4) by lia.
  cbn [Nat.mul Nat.add].
  change (packField frame 32 24) with (packField frame (16 + 16) 24).
  change (packField frame 40 32) with (packField frame (8 + 32) 32).
  rewrite (packField_past_end frame 16 16 24), (packField_past_end frame 8 32 32) by lia.
  rewrite !packField_packZ.
  pose proof (packZ_split frame 8 8 8) as E1.
  pose proof (packZ_split frame 8 8 16) as E2.
  pose proof (packZ_split frame 16 8 16) as E3.
  pose proof (packZ_split frame 8 8 24) as E4.
  cbn [Nat.add] in E1, E2, E3, E4. rewrite E1, E3, E2, E4.
  change (2 ^ Z.of_nat 8) with 256.
  change (pow2 (8 - Z.of_nat 8)) with 1%Q.
  change (pow2 (8 - Z.of_nat 16)) with (1 # 256)%Q.
  change (pow2 (8 - Z.of_nat 24)) with (1 # 65536)%Q.
  rewrite !inject_Z_plus, !inject_Z_mult, !inject_Z_plus, !inject_Z_mult.
  generalize (inject_Z (packZ frame 8 0)) (inject_Z (packZ frame 8 8))
    (inject_Z (packZ frame 8 16)) (inject_Z (packZ frame 8 24))
    (inject_Z (packZ frame 8 32)).
  intros b0 b1 b2 b3 b4.
  repeat split; field.
Qed.

(** ** Results of the readers from an acquisition *)

Lemma temperature_of_acquire (fuel : nat) (s : TemperatureScale) (pin : DigitalPin)
    (w w' : World) (r : option (list bool)) :
  acquire fuel pin w = Some (r, w') ->
  kodely.temperature fuel s pin w
  = Some (match r with None => (-1)%Q | Some bits => temperatureOfBits s bits end, w').
Proof. intros H. rewrite temperature_eq. unfold bind. now rewrite H. Qed.

Lemma temperature_spins (fuel : nat) (s : TemperatureScale) (pin : DigitalPin) (w : World) :
  acquire fuel pin w = None -> kodely.temperature fuel s pin w = None.
Proof. intros H. rewrite temperature_eq. unfold bind. now rewrite H. Qed.

Lemma relativeHumidity_of_acquire (fuel : nat) (pin : DigitalPin) (w w' : World)
    (r : option (list bool)) :
  acquire fuel pin w = Some (r, w') ->
  kodely.relativeHumidity fuel pin w
  = match r with None => ret (-1)%Q | Some bits => reportHumidity bits end w'.
Proof. intros H. rewrite relativeHumidity_eq. unfold bind. now rewrite H. Qed.

Lemma relativeHumidity_spins (fuel : nat) (pin : DigitalPin) (w : World) :
  acquire fuel pin w = None -> kodely.relativeHumidity fuel pin w = None.
Proof. intros H. rewrite relativeHumidity_eq. unfold bind. now rewrite H. Qed.

Lemma reportHumidity_result (bits : list bool) (w : World) :
  exists w', reportHumidity bits w = Some (humidityOfBits bits, w')
             /\ signal w' = signal w /\ reads w' = reads w /\ pinOps w' = pinOps w
             /\ (checksumOk (decode bits) = true -> w' = w).
Proof.
  unfold reportHumidity, humidityOfBits. cbv zeta.
  destruct (checksumOk (decode bits)).
  - exists w. unfold ret. auto.
  - unfold bind, serial.writeLine, ret. cbn [signal reads pinOps serialOut].
    eexists. split; [reflexivity|]. cbn. repeat split. discriminate.
Qed.

Lemma temperatureOfBits_sentinel (s : TemperatureScale) (bits : list bool) :
  ((temperatureOfBits s bits == -999)%Q <-> checksumOk (decode bits) = false)
  /\ ~ (temperatureOfBits s bits == -1)%Q.
Proof.
  unfold temperatureOfBits.
  destruct (nonneg_not_sentinel _ (toTemperature_nonneg s bits)) as [N1 N2].
  destruct (checksumOk (decode bits)).
  - split; [split; [tauto|discriminate]|assumption].
  - split; [split; reflexivity|discriminate].
Qed.

Lemma humidityOfBits_sentinel (bits : list bool) :
  ((humidityOfBits bits == -999)%Q <-> checksumOk (decode bits) = false)
  /\ ~ (humidityOfBits bits == -1)%Q.
Proof.
  unfold humidityOfBits.
  destruct (nonneg_not_sentinel _ (toHumidity_nonneg bits)) as [N1 N2].
  destruct (checksumOk (decode bits)).
  - split; [split; [tauto|discriminate]|assumption].
  - split; [split; reflexivity|discriminate].
Qed.

(** ** C5: the no-response path *)

(** C5.  When the line reads high at the sample taken after the 40 us wait
    (the second read of the call), [temperature] and [relativeHumidity] return
    [-1] for any fuel, and the call has performed exactly the six pin
    operations of the start signal and two reads: no busy-wait and no bit
    sampling took place. *)
Theorem no_response_returns_minus_one (fuel : nat) (s : TemperatureScale)
    (pin : DigitalPin) (w : World) :
  signal w (S (reads w)) = true ->
  let w' := mkWorld (signal w) (S (S (reads w)))
              (pinOps w ++ [DigitalWritePin pin 0; Pause 18; SetPull pin PullUp;
                            DigitalReadPin pin (levelValue (signal w (reads w)));
                            WaitMicros 40; DigitalReadPin pin 1])
              (serialOut w) in
  kodely.temperature fuel s pin w = Some ((-1)%Q, w')
  /\ kodely.relativeHumidity fuel pin w = Some ((-1)%Q, w').
Proof.
  intros H w'.
  pose proof (acquire_noResponse fuel pin w H) as A.
  split.
  - now rewrite (temperature_of_acquire _ _ _ _ _ _ A).
  - now rewrite (relativeHumidity_of_acquire _ _ _ _ _ A).
Qed.

Lemma no_response_returns_minus_one_witness :
  signal (init (fun _ => true)) (S (reads (init (fun _ => true)))) = true
  /\ kodely.temperature 0 Fahrenheit 1 (init (fun _ => true))
     = Some ((-1)%Q,
             mkWorld (fun _ => true) 2
               [DigitalWritePin 1 0; Pause 18; SetPull 1 PullUp; DigitalReadPin 1 1;
                WaitMicros 40; DigitalReadPin 1 1] [])
  /\ kodely.relativeHumidity 0 1 (init (fun _ => true))
     = Some ((-1)%Q,
             mkWorld (fun _ => true) 2
               [DigitalWritePin 1 0; Pause 18; SetPull 1 PullUp; DigitalReadPin 1 1;
                WaitMicros 40; DigitalReadPin 1 1] []).
Proof.
  split; [reflexivity|].
  exact (no_response_returns_minus_one 0 Fahrenheit 1 (init (fun _ => true)) eq_refl).
Defined.

(** ** C6: the scale does not affect acquisition *)

(** C6.  Two runs of [temperature] on the same world (same signal, same
    fuel) with scales [s1] and [s2] either both do not return, or both take
    the no-response exit with [-1] in the same final world, or both sample the
    same 40 bits and end in the same final world (same pin operations, same
    number of reads), take the same checksum decision, and both return [-999]
    when it fails; only the converted value depends on the scale.  Hence
    whenever both return, the final worlds are equal and one result is the
    sentinel [-1] (or [-999]) exactly when the other is. *)
Theorem scale_does_not_affect_acquisition (fuel : nat) (pin : DigitalPin) (w : World)
    (s1 s2 : TemperatureScale) :
  ((kodely.temperature fuel s1 pin w = None /\ kodely.temperature fuel s2 pin w = None)
   \/ (exists w',
         acquire fuel pin w = Some (None, w')
         /\ kodely.temperature fuel s1 pin w = Some ((-1)%Q, w')
         /\ kodely.temperature fuel s2 pin w = Some ((-1)%Q, w'))
   \/ (exists bits w',
         acquire fuel pin w = Some (Some bits, w') /\ length bits = 40%nat
         /\ ((checksumOk (decode bits) = false
              /\ kodely.temperature fuel s1 pin w = Some ((-999)%Q, w')
              /\ kodely.temperature fuel s2 pin w = Some ((-999)%Q, w'))
             \/ (checksumOk (decode bits) = true
                 /\ kodely.temperature fuel s1 pin w
                    = Some (toTemperature s1 (decode bits), w')
                 /\ kodely.temperature fuel s2 pin w
                    = Some (toTemperature s2 (decode bits), w')))))
  /\ (forall r1 w1 r2 w2,
        kodely.temperature fuel s1 pin w = Some (r1, w1) ->
        kodely.temperature fuel s2 pin w = Some (r2, w2) ->
        w1 = w2
        /\ ((r1 == -1)%Q <-> (r2 == -1)%Q)
        /\ ((r1 == -999)%Q <-> (r2 == -999)%Q)).
Proof.
  destruct (acquire fuel pin w) as [[[bits|] w']|] eqn:A.
  - rewrite !(temperature_of_acquire _ _ _ _ _ _ A). split.
    + right; right. exists bits, w'. split; [reflexivity|].
      unfold temperatureOfBits. split.
      * apply acquire_inv in A. destruct A as [[? _]|[b [q [ops [E [HS _]]]]]];
          [discriminate|]. injection E as ->. exact (Served_length _ _ _ _ _ _ HS).
      * destruct (checksumOk (decode bits)); auto.
    + intros r1 w1 r2 w2 E1 E2. injection E1 as <- <-. injection E2 as <- <-.
      destruct (temperatureOfBits_sentinel s1 bits) as [I1 N1].
      destruct (temperatureOfBits_sentinel s2 bits) as [I2 N2].
      split; [reflexivity|]. split; [tauto|]. now rewrite I1, I2.
  - rewrite !(temperature_of_acquire _ _ _ _ _ _ A). split.
    + right; left. exists w'. auto.
    + intros r1 w1 r2 w2 E1 E2. injection E1 as <- <-. injection E2 as <- <-.
      repeat split; trivial.
  - rewrite !temperature_spins by assumption. split; [auto|]. discriminate.
Qed.

(** ** C7: the two readers share handshake, sampling and checksum decision *)

(** C7.  On the same world, [temperature] with the Celsius scale and
    [relativeHumidity] either both do not return, or both return [-1] in the
    same final world, or both sample the same 40 bits with the same pin
    operations and reads and take the same checksum decision: on failure both
    return [-999] (the humidity reader also writes serial lines), on success
    the first returns [Tint + Tdec / 100] and the second
    [RHint + RHdec / 100] of the same decoded fields.  Hence whenever both
    return, they did the same pin operations and reads, and one result is
    [-1] (or [-999]) exactly when the other is. *)
Theorem readers_share_acquisition (fuel : nat) (pin : DigitalPin) (w : World) :
  ((kodely.temperature fuel Celsius pin w = None
    /\ kodely.relativeHumidity fuel pin w = None)
   \/ (exists w',
         acquire fuel pin w = Some (None, w')
         /\ kodely.temperature fuel Celsius pin w = Some ((-1)%Q, w')
         /\ kodely.relativeHumidity fuel pin w = Some ((-1)%Q, w'))
   \/ (exists bits w',
         acquire fuel pin w = Some (Some bits, w') /\ length bits = 40%nat
         /\ ((checksumOk (decode bits) = false
              /\ kodely.temperature fuel Celsius pin w = Some ((-999)%Q, w')
              /\ exists w'',
                   kodely.relativeHumidity fuel pin w = Some ((-999)%Q, w'')
                   /\ signal w'' = signal w' /\ reads w'' = reads w'
                   /\ pinOps w'' = pinOps w')
             \/ (checksumOk (decode bits) = true
                 /\ kodely.temperature fuel Celsius pin w
                    = Some ((Tint (decode bits) + Tdec (decode bits) / 100)%Q, w')
                 /\ kodely.relativeHumidity fuel pin w
                    = Some ((RHint (decode bits) + RHdec (decode bits) / 100)%Q, w')))))
  /\ (forall r1 w1 r2 w2,
        kodely.temperature fuel Celsius pin w = Some (r1, w1) ->
        kodely.relativeHumidity fuel pin w = Some (r2, w2) ->
        pinOps w1 = pinOps w2 /\ reads w1 = reads w2
        /\ ((r1 == -1)%Q <-> (r2 == -1)%Q)
        /\ ((r1 == -999)%Q <-> (r2 == -999)%Q)).
Proof.
  destruct (acquire fuel pin w) as [[[bits|] w']|] eqn:A.
  - rewrite (temperature_of_acquire _ _ _ _ _ _ A).
    rewrite (relativeHumidity_of_acquire _ _ _ _ _ A).
    destruct (reportHumidity_result bits w') as [w'' (R & H1 & H2 & H3 & H4)].
    rewrite R. split.
    + right; right. exists bits, w'. split; [reflexivity|]. split.
      * apply acquire_inv in A. destruct A as [[? _]|[b [q [ops [E [HS _]]]]]];
          [discriminate|]. injection E as ->. exact (Served_length _ _ _ _ _ _ HS).
      * unfold temperatureOfBits, humidityOfBits.
        destruct (checksumOk (decode bits)).
        -- right. rewrite H4 by reflexivity. auto.
        -- left. split; [reflexivity|]. split; [reflexivity|]. exists w''. auto.
    + intros r1 w1 r2 w2 E1 E2. injection E1 as <- <-. injection E2 as <- <-.
      destruct (temperatureOfBits_sentinel Celsius bits) as [I1 N1].
      destruct (humidityOfBits_sentinel bits) as [I2 N2].
      split; [now symmetry|]. split; [now symmetry|]. split; [tauto|].
      now rewrite I1, I2.
  - rewrite (temperature_of_acquire _ _ _ _ _ _ A).
    rewrite (relativeHumidity_of_acquire _ _ _ _ _ A). split.
    + right; left. exists w'. auto.
    + intros r1 w1 r2 w2 E1 E2. injection E1 as <- <-. unfold ret in E2.
      injection E2 as <- <-. repeat split; trivial.
  - rewrite temperature_spins, relativeHumidity_spins by assumption.
    split; [auto|]. discriminate.
Qed.

(** ** C9: the sampling loop *)

Lemma Wait_ops sig pin (b : bool) p q ops :
  Wait sig pin (levelValue b) p q ops ->
  ops = repeat (DigitalReadPin pin (levelValue b)) (q - p - 1)
        ++ [DigitalReadPin pin (levelValue (negb b))].
Proof.
  induction 1 as [p Hp|p q ops Hp HW IH].
  - replace (S p - p - 1)%nat with 0%nat by lia. cbn.
    destruct (sig p), b; cbn in *; congruence.
  - pose proof (Wait_lt _ _ _ _ _ _ HW).
    replace (q - p - 1)%nat with (S (q - S p - 1)) by lia. cbn. now rewrite <- IH.
Qed.

Lemma Sampling_iters sig pin n p q bits ops :
  Sampling sig pin n p q bits ops ->
  exists iters : list (nat * nat * bool),
    length iters = n /\ bits = map snd iters /\ ops = flat_map (iterOps pin) iters.
Proof.
  induction 1 as [p|n p p1 p2 q o1 o2 bits ops W1 W2 HS [iters [Hl [Hb Ho]]]].
  - exists []. auto.
  - exists ((p1 - p - 1, p2 - p1 - 1, sig p2)%nat :: iters).
    split; [cbn; congruence|]. split; [cbn; congruence|].
    apply (Wait_ops sig pin true) in W1. apply (Wait_ops sig pin false) in W2.
    cbn [flat_map]. unfold iterOps at 1. cbn [fst snd].
    rewrite W1, W2, Ho. cbn [negb levelValue].
    now rewrite <- !app_assoc.
Qed.

Lemma Served_acquire_within sig pin p q bits ops :
  Served sig pin p q bits ops ->
  forall (fuel : nat) (w : World),
    signal w = sig -> reads w = p -> (q - p <= fuel)%nat ->
    acquire fuel pin w = Some (Some bits, advance w q ops).
Proof.
  intros [Hack [p1 [p2 [o1 [o2 [o3 [W1 [W2 [HS ->]]]]]]]]] fuel w Hs Hr Hf.
  pose proof (Wait_lt _ _ _ _ _ _ W1). pose proof (Wait_lt _ _ _ _ _ _ W2).
  pose proof (Sampling_le _ _ _ _ _ _ _ HS).
  unfold acquire, bind, handshake, bind.
  unfold pins.digitalWritePin, basic.pause, pins.setPull, control.waitMicros,
    logOp, pins.digitalReadPin.
  cbv zeta. cbn [signal reads pinOps serialOut].
  rewrite Hs, Hr, Hack. cbn [levelValue Z.eqb].
  rewrite (Wait_whileReadEq _ _ _ _ _ _ W1) by (cbn; reflexivity || lia).
  rewrite (Wait_whileReadEq _ _ _ _ _ _ W2) by (cbn; reflexivity || lia).
  unfold ret, sampleBits, forUpTo. rewrite emptyFrame_eq.
  rewrite (Sampling_forFrom _ _ _ _ _ _ _ HS fuel []) by (cbn; reflexivity || lia).
  cbn [app]. do 2 f_equal.
  unfold advance, startOps; cbn. rewrite Hs. f_equal. now rewrite <- !app_assoc.
Qed.

Lemma agrees_app sig p (l1 l2 : list bool) :
  agrees sig p (l1 ++ l2) -> agrees sig p l1 /\ agrees sig (p + length l1) l2.
Proof.
  intros H. split; intros k Hk.
  - rewrite H by (rewrite length_app; lia). now rewrite app_nth1.
  - rewrite <- Nat.add_assoc, H by (rewrite length_app; lia).
    rewrite app_nth2 by lia. f_equal. lia.
Qed.

Lemma agrees_repeat sig p (v : bool) (a : nat) :
  agrees sig p (repeat v a) -> forall k, (k < a)%nat -> sig (p + k)%nat = v.
Proof.
  intros H k Hk. rewrite H by (rewrite repeat_length; lia). apply nth_repeat_lt.
  assumption.
Qed.

Lemma agrees_one sig p (v : bool) : agrees sig p [v] -> sig p = v.
Proof. intros H. specialize (H 0%nat). rewrite Nat.add_0_r in H. apply H. cbn. lia. Qed.

(** A line that keeps level [b] for [a] reads and then changes ends a wait
    on [b] after [a + 1] reads. *)
Lemma Wait_repeat sig pin (b : bool) :
  forall (a p : nat),
    (forall k, (k < a)%nat -> sig (p + k)%nat = b) ->
    sig (p + a)%nat = negb b ->
    Wait sig pin (levelValue b) p (p + a + 1)
      (repeat (DigitalReadPin pin (levelValue b)) a
       ++ [DigitalReadPin pin (levelValue (negb b))]).
Proof.
  induction a as [|a IH]; intros p Hk Ha.
  - rewrite Nat.add_0_r in *. replace (p + 1)%nat with (S p) by lia. cbn [repeat app].
    rewrite <- Ha. apply Wait_exit. rewrite Ha. now destruct b.
  - cbn [repeat app]. apply Wait_spin.
    + f_equal. specialize (Hk 0%nat). rewrite Nat.add_0_r in Hk. apply Hk. lia.
    + replace (p + S a + 1)%nat with (S p + a + 1)%nat by lia. apply IH.
      * intros k Hlt. replace (S p + k)%nat with (p + S k)%nat by lia. apply Hk. lia.
      * now replace (S p + a)%nat with (p + S a)%nat by lia.
Qed.

Lemma length_iterReads (it : nat * nat * bool) :
  length (iterReads it) = (fst (fst it) + snd (fst it) + 3)%nat.
Proof. unfold iterReads. rewrite !length_app, !repeat_length. cbn. lia. Qed.

(** On a line that shows the levels of the iterations [iters], the sampling
    loop runs them one by one and collects their sampled levels in order. *)
Lemma Sampling_pattern sig pin :
  forall (iters : list (nat * nat * bool)) (p : nat),
    agrees sig p (flat_map iterReads iters) ->
    Sampling sig pin (length iters) p (p + length (flat_map iterReads iters))
      (map snd iters) (flat_map (iterOps pin) iters).
Proof.
  induction iters as [|[[a b] x] iters IH]; intros p H.
  - cbn. rewrite Nat.add_0_r. constructor.
  - cbn [flat_map] in H. apply agrees_app in H. destruct H as [Hit Hrest].
    rewrite length_iterReads in Hrest. cbn [fst snd] in Hrest.
    unfold iterReads in Hit. cbn [fst snd] in Hit.
    apply agrees_app in Hit. destruct Hit as [Ha Hit]. rewrite repeat_length in Hit.
    apply agrees_app in Hit. destruct Hit as [Hlow Hit]. cbn [length] in Hit.
    apply agrees_app in Hit. destruct Hit as [Hb Hit]. rewrite repeat_length in Hit.
    apply agrees_app in Hit. destruct Hit as [Hhigh Hx]. cbn [length] in Hx.
    apply agrees_one in Hlow, Hhigh, Hx.
    pose proof (agrees_repeat _ _ _ _ Ha) as Ha'.
    pose proof (agrees_repeat _ _ _ _ Hb) as Hb'.
    assert (W1 : Wait sig pin 1 p (p + a + 1)
                   (repeat (DigitalReadPin pin 1) a ++ [DigitalReadPin pin 0]))
      by (apply (Wait_repeat sig pin true); assumption).
    assert (W2 : Wait sig pin 0 (p + a + 1) (p + a + 1 + b + 1)
                   (repeat (DigitalReadPin pin 0) b ++ [DigitalReadPin pin 1]))
      by (apply (Wait_repeat sig pin false); assumption).
    specialize (IH (p + (a + b + 3))%nat Hrest).
    cbn [length map flat_map snd]. rewrite length_app, length_iterReads. cbn [fst snd].
    unfold iterOps at 1. cbn [fst snd].
    subst x. rewrite <- !app_assoc.
    rewrite (app_assoc (repeat (DigitalReadPin pin 1) a) [DigitalReadPin pin 0]).
    rewrite (app_assoc (repeat (DigitalReadPin pin 0) b) [DigitalReadPin pin 1]).
    eapply Sampling_bit; [exact W1|exact W2|].
    replace (S (p + a + 1 + b + 1)) with (p + (a + b + 3))%nat by lia.
    replace (p + (a + b + 3 + length (flat_map iterReads iters)))%nat
      with (p + (a + b + 3) + length (flat_map iterReads iters))%nat by lia.
    exact IH.
Qed.

(** A line that shows [linePattern first a0 b0 iters] serves the read. *)
Lemma Served_pattern sig pin p first a0 b0 (iters : list (nat * nat * bool)) :
  length iters = 40%nat ->
  agrees sig p (linePattern first a0 b0 iters) ->
  Served sig pin p (p + length (linePattern first a0 b0 iters)) (map snd iters)
    (startOps pin (sig p) (sig (S p))
     ++ (repeat (DigitalReadPin pin 0) a0 ++ [DigitalReadPin pin 1])
     ++ (repeat (DigitalReadPin pin 1) b0 ++ [DigitalReadPin pin 0])
     ++ flat_map (iterOps pin) iters)
  /\ sig p = first /\ sig (S p) = false.
Proof.
  intros Hl H. unfold linePattern in *.
  apply agrees_app in H. destruct H as [Hstart H]. cbn [length] in H.
  apply agrees_app in H. destruct H as [Ha H]. rewrite repeat_length in H.
  apply agrees_app in H. destruct H as [Hhigh H]. cbn [length] in H.
  apply agrees_app in H. destruct H as [Hb H]. rewrite repeat_length in H.
  apply agrees_app in H. destruct H as [Hlow H]. cbn [length] in H.
  apply agrees_one in Hhigh, Hlow.
  pose proof (Hstart 0%nat ltac:(cbn; lia)) as H0. rewrite Nat.add_0_r in H0.
  pose proof (Hstart 1%nat ltac:(cbn; lia)) as H1.
  replace (p + 1)%nat with (S p) in H1 by lia. cbn in H0, H1.
  pose proof (agrees_repeat _ _ _ _ Ha) as Ha'.
  pose proof (agrees_repeat _ _ _ _ Hb) as Hb'.
  split; [|split; assumption].
  split; [assumption|].
  exists (p + 2 + a0 + 1)%nat, (p + 2 + a0 + 1 + b0 + 1)%nat,
    (repeat (DigitalReadPin pin 0) a0 ++ [DigitalReadPin pin 1]),
    (repeat (DigitalReadPin pin 1) b0 ++ [DigitalReadPin pin 0]),
    (flat_map (iterOps pin) iters).
  split; [|split; [|split]].
  - replace (S (S p)) with (p + 2)%nat by lia.
    apply (Wait_repeat sig pin false); assumption.
  - apply (Wait_repeat sig pin true); assumption.
  - pose proof (Sampling_pattern sig pin iters (p + 2 + a0 + 1 + b0 + 1)%nat H) as S.
    rewrite Hl in S.
    replace (p + length ([first; false] ++ repeat false a0 ++ [true]
                         ++ repeat true b0 ++ [false] ++ flat_map iterReads iters))%nat
      with (p + 2 + a0 + 1 + b0 + 1 + length (flat_map iterReads iters))%nat; [exact S|].
    rewrite !length_app, !repeat_length. cbn [length]. lia.
  - reflexivity.
Qed.

(** C9.  Whenever the line, from the call on, shows a low acknowledge sample,
    rises after [a0] more low reads, falls after [b0] more high reads, and
    then serves 40 iterations, each staying high for some reads, then low,
    then high again, the read returns, given a fuel of at least the number of
    levels met: the sampling loop ran exactly 40 times, each iteration
    spinning while the line was high, spinning while it was low, waiting
    28 us and sampling once; the frame both readers decode has exactly 40
    bits and bit [i] is the level sampled by iteration [i], bit 0 first.
    Conversely every acquisition that returns a frame, with any fuel from any
    world, has a log ending in 40 such blocks and a frame of their 40
    samples. *)
Theorem sampling_runs_forty_iterations (fuel : nat) (pin : DigitalPin) (w : World)
    (first : bool) (a0 b0 : nat) (iters : list (nat * nat * bool)) :
  length iters = 40%nat ->
  agrees (signal w) (reads w) (linePattern first a0 b0 iters) ->
  (length (linePattern first a0 b0 iters) <= fuel)%nat ->
  let bits := map snd iters in
  let w' := advance w (reads w + length (linePattern first a0 b0 iters))
              (lineOps pin first a0 b0 iters) in
  acquire fuel pin w = Some (Some bits, w')
  /\ length bits = 40%nat
  /\ (forall i it, iters !! i = Some it -> bits !! i = Some (snd it))
  /\ (forall s, kodely.temperature fuel s pin w = Some (temperatureOfBits s bits, w'))
  /\ (exists w'', kodely.relativeHumidity fuel pin w = Some (humidityOfBits bits, w'')
                  /\ pinOps w'' = pinOps w' /\ reads w'' = reads w')
  /\ (forall fuel0 (w0 w0' : World) (bits0 : list bool),
        acquire fuel0 pin w0 = Some (Some bits0, w0') ->
        length bits0 = 40%nat
        /\ exists (iters0 : list (nat * nat * bool)) (pre : list PinOp) (p : nat),
             length iters0 = 40%nat
             /\ bits0 = map snd iters0
             /\ pinOps w0' = pinOps w0 ++ pre ++ flat_map (iterOps pin) iters0
             /\ Sampling (signal w0) pin 40 p (reads w0') bits0
                  (flat_map (iterOps pin) iters0)).
Proof.
  intros Hl Hag Hf. cbv zeta.
  destruct (Served_pattern _ pin _ _ _ _ _ Hl Hag) as [HS [H0 H1]].
  assert (A : acquire fuel pin w
              = Some (Some (map snd iters),
                      advance w (reads w + length (linePattern first a0 b0 iters))
                        (lineOps pin first a0 b0 iters))).
  { rewrite (Served_acquire_within _ _ _ _ _ _ HS) by (reflexivity || lia).
    unfold lineOps. rewrite H0, H1. now rewrite <- !app_assoc. }
  split; [exact A|]. split; [now rewrite length_map|].
  split; [intros i it Hi; now rewrite list_lookup_fmap, Hi|].
  split; [intros s; now rewrite (temperature_of_acquire _ _ _ _ _ _ A)|].
  split.
  - rewrite (relativeHumidity_of_acquire _ _ _ _ _ A).
    destruct (reportHumidity_result (map snd iters)
                (advance w (reads w + length (linePattern first a0 b0 iters))
                   (lineOps pin first a0 b0 iters)))
      as [w'' (R & _ & Hr & Hp & _)].
    exists w''. auto.
  - intros fuel0 w0 w0' bits0 A0. split.
    + apply acquire_inv in A0. destruct A0 as [[? _]|[b [q [ops [E [HS0 _]]]]]];
        [discriminate|]. injection E as ->. exact (Served_length _ _ _ _ _ _ HS0).
    + apply acquire_inv in A0. destruct A0 as [[? _]|[b [q [ops [E [HS0 ->]]]]]];
        [discriminate|]. injection E as ->.
      destruct HS0 as [Hack [p1 [p2 [o1 [o2 [o3 [W1 [W2 [HS0 ->]]]]]]]]].
      destruct (Sampling_iters _ _ _ _ _ _ _ HS0) as [iters0 [Hl0 [Hb0 Ho0]]].
      exists iters0,
        (startOps pin (signal w0 (reads w0)) (signal w0 (S (reads w0))) ++ o1 ++ o2), p2.
      split; [assumption|]. split; [assumption|]. split.
      * cbn [advance pinOps]. rewrite Ho0. now rewrite <- !app_assoc.
      * cbn [advance reads]. now rewrite <- Ho0.
Qed.

(** ** C8: termination *)

Lemma Wait_iff_change sig pin v p :
  (exists q ops, Wait sig pin v p q ops)
  <-> (exists k, levelValue (sig (p + k)%nat) <> v).
Proof.
  split.
  - intros [q [ops HW]]. pose proof (Wait_lt _ _ _ _ _ _ HW).
    apply Wait_change in HW. exists (q - 1 - p)%nat.
    now replace (p + (q - 1 - p))%nat with (q - 1)%nat by lia.
  - intros [k Hk]. destruct (Wait_of_change sig pin v k p Hk) as [q [ops [HW _]]].
    eauto.
Qed.

Lemma acquire_returns_iff (pin : DigitalPin) (w : World) :
  (exists fuel r w', acquire fuel pin w = Some (r, w'))
  <-> (signal w (S (reads w)) = true
       \/ exists q bits ops, Served (signal w) pin (reads w) q bits ops).
Proof.
  split.
  - intros [fuel [r [w' A]]]. apply acquire_inv in A.
    destruct A as [[_ [H _]]|[bits [q [ops [_ [HS _]]]]]]; eauto 6.
  - intros [H|[q [bits [ops HS]]]].
    + exists 0%nat. rewrite acquire_noResponse by assumption. eauto.
    + exists q. rewrite (Served_acquire _ _ _ _ _ _ HS) by (reflexivity || lia). eauto.
Qed.

Lemma acquire_low_line (fuel : nat) (pin : DigitalPin) :
  acquire fuel pin (init (fun _ => false)) = None.
Proof.
  destruct (acquire fuel pin (init (fun _ => false))) as [[r w']|] eqn:A;
    [|reflexivity].
  apply acquire_inv in A. cbn [init signal reads] in A.
  destruct A as [[_ [H _]]|[bits [q [ops [_ [HS _]]]]]]; [discriminate|].
  destruct HS as [_ [p1 [p2 [o1 [o2 [o3 [W1 _]]]]]]].
  apply Wait_change in W1. now destruct W1 as [W1 _].
Qed.

(** C8.  The busy-wait loops have no bound of their own.  A wait returns,
    given enough fuel, exactly when the signal has a sample ahead that
    differs from the level waited on, and exhausts any fuel on a line that
    keeps that level.  A read returns exactly when the acknowledge sample is
    high or every one of its 82 waits meets its level change ([Served]).  On
    the line that is low forever the acknowledge check passes and neither
    reader returns, whatever the fuel. *)
Theorem busy_waits_are_unbounded :
  (forall pin v (w : World),
     (exists fuel w', whileReadEq fuel pin v w = Some (tt, w'))
     <-> (exists k, levelValue (signal w (reads w + k)%nat) <> v))
  /\ (forall fuel pin v (w : World),
        (forall k, levelValue (signal w (reads w + k)%nat) = v) ->
        whileReadEq fuel pin v w = None)
  /\ (forall s pin (w : World),
        (exists fuel r w', kodely.temperature fuel s pin w = Some (r, w'))
        <-> (signal w (S (reads w)) = true
             \/ exists q bits ops, Served (signal w) pin (reads w) q bits ops))
  /\ (forall pin (w : World),
        (exists fuel r w', kodely.relativeHumidity fuel pin w = Some (r, w'))
        <-> (signal w (S (reads w)) = true
             \/ exists q bits ops, Served (signal w) pin (reads w) q bits ops))
  /\ (forall fuel s pin,
        kodely.temperature fuel s pin (init (fun _ => false)) = None)
  /\ (forall fuel pin,
        kodely.relativeHumidity fuel pin (init (fun _ => false)) = None).
Proof.
  split; [|split; [|split; [|split; [|split]]]].
  - intros pin v w. rewrite <- Wait_iff_change. split.
    + intros [fuel [w' H]]. apply whileReadEq_Wait in H.
      destruct H as [q [ops [HW _]]]. eauto.
    + intros [q [ops HW]]. exists q.
      rewrite (Wait_whileReadEq _ _ _ _ _ _ HW) by (reflexivity || lia). eauto.
  - intros fuel pin v w. apply whileReadEq_spins.
  - intros s pin w. rewrite <- acquire_returns_iff. split.
    + intros [fuel [r [w' H]]]. exists fuel.
      destruct (acquire fuel pin w) as [[a w'']|] eqn:A; [eauto|].
      now rewrite temperature_spins in H.
    + intros [fuel [a [w' A]]]. exists fuel.
      rewrite (temperature_of_acquire _ _ _ _ _ _ A). eauto.
  - intros pin w. rewrite <- acquire_returns_iff. split.
    + intros [fuel [r [w' H]]]. exists fuel.
      destruct (acquire fuel pin w) as [[a w'']|] eqn:A; [eauto|].
      now rewrite relativeHumidity_spins in H.
    + intros [fuel [a [w' A]]]. exists fuel.
      rewrite (relativeHumidity_of_acquire _ _ _ _ _ A).
      destruct a as [bits|]; [|unfold ret; eauto].
      destruct (reportHumidity_result bits w') as [w'' [R _]]. eauto.
  - intros fuel s pin. apply temperature_spins, acquire_low_line.
  - intros fuel pin. apply relativeHumidity_spins, acquire_low_line.
Qed.

Lemma sampling_runs_forty_iterations_witness :
  let w := init (slowSignal frameA) in
  let iters := slowIters frameA in
  let w' := advance w (reads w + length (linePattern true 2 2 iters))
              (lineOps 7 true 2 2 iters) in
  length iters = 40%nat
  /\ agrees (signal w) (reads w) (linePattern true 2 2 iters)
  /\ (length (linePattern true 2 2 iters) <= 208)%nat
  /\ reads w' = 208%nat
  /\ acquire 208 7 w = Some (Some frameA, w')
  /\ acquire 1 7 w = None
  /\ length (map snd iters) = 40%nat
  /\ (forall i it, iters !! i = Some it -> map snd iters !! i = Some (snd it))
  /\ (forall s, kodely.temperature 208 s 7 w
                = Some (temperatureOfBits s (map snd iters), w'))
  /\ (exists w'', kodely.relativeHumidity 208 7 w
                  = Some (humidityOfBits (map snd iters), w'')
                  /\ pinOps w'' = pinOps w' /\ reads w'' = reads w')
  /\ (forall fuel0 (w0 w0' : World) (bits0 : list bool),
        acquire fuel0 7 w0 = Some (Some bits0, w0') ->
        length bits0 = 40%nat
        /\ exists (iters0 : list (nat * nat * bool)) (pre : list PinOp) (p : nat),
             length iters0 = 40%nat
             /\ bits0 = map snd iters0
             /\ pinOps w0' = pinOps w0 ++ pre ++ flat_map (iterOps 7) iters0
             /\ Sampling (signal w0) 7 40 p (reads w0') bits0
                  (flat_map (iterOps 7) iters0)).
Proof.
  cbv zeta.
  assert (Hl : length (slowIters frameA) = 40%nat) by reflexivity.
  assert (Hag : agrees (signal (init (slowSignal frameA)))
                  (reads (init (slowSignal frameA)))
                  (linePattern true 2 2 (slowIters frameA)))
    by (intros k _; reflexivity).
  assert (Hf : (length (linePattern true 2 2 (slowIters frameA)) <= 208)%nat)
    by (vm_compute; lia).
  split; [exact Hl|]. split; [exact Hag|]. split; [exact Hf|].
  split; [reflexivity|].
  pose proof (sampling_runs_forty_iterations 208 7 (init (slowSignal frameA))
                true 2 2 (slowIters frameA) Hl Hag Hf) as T.
  cbv zeta in T. destruct T as (T1 & T2 & T3 & T4 & T5 & T6).
  split; [exact T1|]. split; [vm_compute; reflexivity|].
  split; [exact T2|]. split; [exact T3|]. split; [exact T4|].
  split; [exact T5|exact T6].
Defined.

(** ** C4: unit conversion *)

(** The conversion step alone.  For a frame that passed the checksum test,
    [temperature] returns the specification's formulas applied to the packed
    fields [Tint] and [Tdec], whatever those are: [Tint + Tdec / 100] for Celsius, that value times 9/5 plus 32 for
    Fahrenheit, that value plus 273.15 for Kelvin; [relativeHumidity] returns
    [RHint + RHdec / 100]. *)
Lemma conversion_of_packed_fields (fuel : nat) (pin : DigitalPin) (w w' : World)
    (bits : list bool) :
  acquire fuel pin w = Some (Some bits, w') ->
  checksumOk (decode bits) = true ->
  (forall s, exists r,
      kodely.temperature fuel s pin w = Some (r, w')
      /\ (r == Spec.toTemperature s (Tint (decode bits)) (Tdec (decode bits)))%Q)
  /\ (exists r,
        kodely.relativeHumidity fuel pin w = Some (r, w')
        /\ (r == Spec.humidity (RHint (decode bits)) (RHdec (decode bits)))%Q).
Proof.
  intros A Hck. split.
  - intros s. rewrite (temperature_of_acquire _ _ _ _ _ _ A).
    unfold temperatureOfBits. rewrite Hck. eexists. split; [reflexivity|].
    unfold toTemperature, Spec.toTemperature, Spec.toFahrenheit, Spec.toKelvin,
      Spec.celsius.
    destruct s; cbn [scaleValue Z.eqb Pos.eqb]; field.
  - rewrite (relativeHumidity_of_acquire _ _ _ _ _ A).
    unfold reportHumidity. cbv zeta. rewrite Hck. eexists. split; [reflexivity|].
    reflexivity.
Qed.

(** C4.  The frame with bytes 45, 0, 23, 50, 118 has the 8-bit fields
    humidity 45 and 0, temperature 23 and 50, and a checksum equal to their
    sum modulo 256; the program accepts it.  The specification's formulas on
    those fields give 23.5 C, 74.3 F, 296.65 K and 45 percent.  The readers,
    run on a line that serves this frame, return 19416451/819200 (about
    23.70) for Celsius, and values different from 74.3, from 296.65 and from
    45 for Fahrenheit, Kelvin and humidity: the conversion is applied to
    packed fields that took in the following bytes. *)
Theorem readings_differ_from_formulas_on_bytes :
  Spec.pack frameA = Spec.mkFrame 45 0 23 50 118
  /\ Spec.valid (Spec.pack frameA)
  /\ checksumOk (decode frameA) = true
  /\ (Spec.toTemperature Celsius 23 50 == 235 # 10
      /\ Spec.toTemperature Fahrenheit 23 50 == 743 # 10
      /\ Spec.toTemperature Kelvin 23 50 == 29665 # 100
      /\ Spec.humidity 45 0 == 45)%Q
  /\ (exists r, fst <$> kodely.temperature 1 Celsius 7 (init (sensorSignal frameA))
                = Some r
                /\ (r == 19416451 # 819200)%Q
                /\ ~ (r == Spec.toTemperature Celsius 23 50)%Q)
  /\ (exists r, fst <$> kodely.temperature 1 Fahrenheit 7 (init (sensorSignal frameA))
                = Some r
                /\ ~ (r == Spec.toTemperature Fahrenheit 23 50)%Q)
  /\ (exists r, fst <$> kodely.temperature 1 Kelvin 7 (init (sensorSignal frameA))
                = Some r
                /\ ~ (r == Spec.toTemperature Kelvin 23 50)%Q)
  /\ (exists r, fst <$> kodely.relativeHumidity 1 7 (init (sensorSignal frameA))
                = Some r
                /\ (r == 1152023 # 25600)%Q
                /\ ~ (r == Spec.humidity 45 0)%Q).
Proof.
  split; [reflexivity|]. split; [reflexivity|]. split; [vm_compute; reflexivity|].
  split; [repeat split; vm_compute; reflexivity|].
  split; [eexists; split; [vm_compute; reflexivity|];
          split; [vm_compute; reflexivity|vm_compute; discriminate]|].
  split; [eexists; split; [vm_compute; reflexivity|vm_compute; discriminate]|].
  split; [eexists; split; [vm_compute; reflexivity|vm_compute; discriminate]|].
  eexists; split; [vm_compute; reflexivity|].
  split; [vm_compute; reflexivity|vm_compute; discriminate].
Qed.

(** ** C1: the decoded fields against the byte slices *)

(** C1.  On the frame with bytes 45, 0, 23, 50, 118 (a valid frame), the
    byte slices are 45, 0, 23, 50 and 118, but the packing loops give
    [RHdec = 23/256], [Tint = 23 + 50/256 + 118/65536] and
    [Tdec = 50 + 118/256]: the loops for the second, third and fourth field
    run over 16, 24 and 32 bits and take in the following bytes as a
    fraction.  Only [RHint] and [chksum] are the value of their slice.  Read
    from a sensor, this frame gives a temperature above 23.5 and a humidity
    above 45. *)
Theorem fields_take_in_following_bytes :
  length frameA = 40%nat
  /\ Spec.pack frameA = Spec.mkFrame 45 0 23 50 118
  /\ Spec.valid (Spec.pack frameA)
  /\ (RHint (decode frameA) == 45
      /\ RHdec (decode frameA) == 23 # 256
      /\ Tint (decode frameA) == 23 + (50 # 256) + (118 # 65536)
      /\ Tdec (decode frameA) == 50 + (118 # 256)
      /\ chksum (decode frameA) == 118)%Q
  /\ ~ (RHdec (decode frameA) == inject_Z (Spec.humidityFraction (Spec.pack frameA)))%Q
  /\ ~ (Tint (decode frameA) == inject_Z (Spec.temperatureInteger (Spec.pack frameA)))%Q
  /\ ~ (Tdec (decode frameA) == inject_Z (Spec.temperatureFraction (Spec.pack frameA)))%Q
  /\ (exists r, fst <$> kodely.temperature 1 Celsius 7 (init (sensorSignal frameA)) = Some r
                /\ (235 # 10 < r)%Q)
  /\ (exists r, fst <$> kodely.relativeHumidity 1 7 (init (sensorSignal frameA)) = Some r
                /\ (45 < r)%Q).
Proof.
  split; [reflexivity|]. split; [reflexivity|]. split; [reflexivity|].
  split; [repeat split; vm_compute; reflexivity|].
  split; [vm_compute; discriminate|]. split; [vm_compute; discriminate|].
  split; [vm_compute; discriminate|].
  split; (eexists; split; [vm_compute; reflexivity|vm_compute; reflexivity]).
Qed.

(** ** C2: the checksum decision *)

(** C2.  The frame with bytes 0, 0, 128, 128 and checksum 0 satisfies
    [checksum = (sum of the four data bytes) mod 256], yet the program's test
    fails on it and both readers return [-999]: the packed fields sum to 257.
    The frame with the same data bytes and checksum 1 does not satisfy the
    equation, yet the program accepts it and returns a reading. *)
Theorem checksum_decision_differs :
  Spec.valid (Spec.pack frameB)
  /\ checksumOk (decode frameB) = false
  /\ (RHint (decode frameB) + RHdec (decode frameB) + Tint (decode frameB)
      + Tdec (decode frameB) == 257)%Q
  /\ fst <$> kodely.temperature 1 Celsius 7 (init (sensorSignal frameB))
     = Some (-999)%Q
  /\ fst <$> kodely.relativeHumidity 1 7 (init (sensorSignal frameB))
     = Some (-999)%Q
  /\ ~ Spec.valid (Spec.pack frameC)
  /\ checksumOk (decode frameC) = true
  /\ exists r, fst <$> kodely.temperature 1 Celsius 7 (init (sensorSignal frameC))
               = Some r /\ (128 < r)%Q.
Proof.
  split; [reflexivity|]. split; [vm_compute; reflexivity|].
  split; [vm_compute; reflexivity|].
  split; [vm_compute; reflexivity|]. split; [vm_compute; reflexivity|].
  split; [vm_compute; discriminate|]. split; [vm_compute; reflexivity|].
  eexists. split; [vm_compute; reflexivity|]. vm_compute. reflexivity.
Qed.

(** ** C3: the array reads of the packing loops *)

Lemma fold_left_map_l {A B C : Type} (f : A -> C -> A) (g : B -> C) (l : list B) (a : A) :
  fold_left f (map g l) a = fold_left (fun acc x => f acc (g x)) l a.
Proof. revert a. induction l as [|x l IH]; intros a; cbn; [reflexivity|apply IH]. Qed.

(** The value of a packing loop is a fold over its array reads. *)
Lemma packField_reads (dataBits : list bool) (n off : nat) :
  packField dataBits n off
  = fold_left (fun acc r =>
      acc + (if truthy (snd r) then pow2 (7 - Z.of_nat (fst r - off)) else 0))%Q
      (packReads dataBits n off) 0%Q.
Proof.
  unfold packField, packReads. rewrite fold_left_map_l. cbn [fst snd].
  apply forPure_ext. intros i acc _. now rewrite Nat.add_sub.
Qed.

(** C3.  On every 40-bit frame the five packing loops perform
    8 + 16 + 24 + 32 + 40 = 120 array reads, of which 48 are past the end of
    the array: the fourth loop reads the indices 24 to 55 and the fifth the
    indices 32 to 71.  In particular index 40 is read and yields nothing. *)
Theorem packing_loops_read_past_the_frame (frame : list bool) :
  length frame = 40%nat ->
  length (decodeReads frame) = 120%nat
  /\ In (40%nat, None) (packReads frame 32 24)
  /\ In (71%nat, None) (packReads frame 40 32)
  /\ length (List.filter outOfRange (decodeReads frame)) = 48%nat
  /\ map fst (List.filter outOfRange (packReads frame 32 24)) = seq 40 16
  /\ map fst (List.filter outOfRange (packReads frame 40 32)) = seq 40 32.
Proof.
  intros H.
  do 40 (destruct frame as [|? frame]; [discriminate|]).
  destruct frame; [|discriminate].
  split; [reflexivity|].
  split; [cbn; tauto|]. split; [cbn; tauto|].
  repeat split; reflexivity.
Qed.

Lemma packing_loops_read_past_the_frame_witness :
  length frameA = 40%nat
  /\ length (decodeReads frameA) = 120%nat
  /\ In (40%nat, None) (packReads frameA 32 24)
  /\ In (71%nat, None) (packReads frameA 40 32)
  /\ length (List.filter outOfRange (decodeReads frameA)) = 48%nat
  /\ map fst (List.filter outOfRange (packReads frameA 32 24)) = seq 40 16
  /\ map fst (List.filter outOfRange (packReads frameA 40 32)) = seq 40 32.
Proof.
  split; [reflexivity|].
  apply (packing_loops_read_past_the_frame frameA). reflexivity.
Defined.

(** ** C10: reversing the bit order *)

Lemma reversal_keeps_fields_of_palindrome :
  length framePal = 40%nat
  /\ rev framePal = framePal
  /\ sameFields (decode (rev framePal)) (decode framePal).
Proof.
  split; [reflexivity|]. split; [reflexivity|].
  repeat split; vm_compute; reflexivity.
Qed.

Lemma sameFields_refl (f : SensorFrame) : sameFields f f.
Proof. repeat split; reflexivity. Qed.

Lemma same_fields_iff_palindrome (frame : list bool) :
  length frame = 40%nat ->
  (sameFields (decode (rev frame)) (decode frame) <-> rev frame = frame).
Proof.
  intros H. split.
  - apply decode_inj; [now rewrite length_rev|assumption].
  - intros ->. apply sameFields_refl.
Qed.

(** C10, amended.  For every 40-bit frame that is not its own reversal,
    the fields decoded from the reversed frame differ, in at least one field,
    from the fields decoded from the frame. *)
Theorem reversal_changes_fields (frame : list bool) :
  length frame = 40%nat ->
  rev frame <> frame ->
  ~ sameFields (decode (rev frame)) (decode frame).
Proof.
  intros H Hne Hs. apply Hne. now apply same_fields_iff_palindrome.
Qed.

Lemma reversal_changes_fields_witness :
  length frameA = 40%nat
  /\ rev frameA <> frameA
  /\ ~ sameFields (decode (rev frameA)) (decode frameA).
Proof.
  split; [reflexivity|]. split; [discriminate|].
  apply (reversal_changes_fields frameA); [reflexivity|discriminate].
Defined.

(** ** The simulated sensor serves every frame *)

Lemma nth_after {A : Type} (pre post : list A) (k : nat) (d : A) :
  nth (length pre + k) (pre ++ post) d = nth k post d.
Proof.
  rewrite app_nth2 by lia. f_equal. lia.
Qed.

Lemma sensor_Sampling (pin : DigitalPin) (sig : Signal) :
  forall (rest pre : list bool),
    (forall k, sig (length pre + k)%nat
               = nth k (flat_map (fun b : bool => [false; true; b]) rest) false) ->
    Sampling sig pin (length rest) (length pre) (length pre + 3 * length rest) rest
      (flat_map (fun b : bool => [DigitalReadPin pin 0; DigitalReadPin pin 1;
                                  WaitMicros 28; DigitalReadPin pin (levelValue b)]) rest).
Proof.
  induction rest as [|b rest IH]; intros pre H.
  - cbn. rewrite Nat.add_0_r. constructor.
  - pose proof (H 0%nat) as H0. pose proof (H 1%nat) as H1. pose proof (H 2%nat) as H2.
    cbn in H0, H1, H2. rewrite Nat.add_0_r in H0.
    replace (length pre + 1)%nat with (S (length pre)) in H1 by lia.
    replace (length pre + 2)%nat with (S (S (length pre))) in H2 by lia.
    cbn [length flat_map app]. rewrite <- H2.
    change (DigitalReadPin pin 0 :: DigitalReadPin pin 1 :: WaitMicros 28
            :: DigitalReadPin pin (levelValue (sig (S (S (length pre)))))
            :: flat_map (fun b0 : bool => [DigitalReadPin pin 0; DigitalReadPin pin 1;
                 WaitMicros 28; DigitalReadPin pin (levelValue b0)]) rest)
      with ([DigitalReadPin pin 0] ++ [DigitalReadPin pin 1]
            ++ [WaitMicros 28; DigitalReadPin pin (levelValue (sig (S (S (length pre)))))]
            ++ flat_map (fun b0 : bool => [DigitalReadPin pin 0; DigitalReadPin pin 1;
                 WaitMicros 28; DigitalReadPin pin (levelValue b0)]) rest).
    eapply Sampling_bit.
    + replace 0 with (levelValue (sig (length pre))) by now rewrite H0.
      apply Wait_exit. now rewrite H0.
    + replace 1 with (levelValue (sig (S (length pre)))) by now rewrite H1.
      apply Wait_exit. now rewrite H1.
    + specialize (IH (pre ++ [false; true; sig (S (S (length pre)))])).
      rewrite length_app in IH. cbn [length] in IH.
      replace (length pre + 3 * S (length rest))%nat
        with (length pre + 3 + 3 * length rest)%nat by lia.
      replace (S (S (S (length pre)))) with (length pre + 3)%nat by lia.
      apply IH. intros k.
      replace (length pre + 3 + k)%nat with (length pre + (3 + k))%nat by lia.
      rewrite H. reflexivity.
Qed.

(** X10.  For every 40-bit frame the simulated sensor makes the acquisition return
    that frame, with a fuel of 124 iterations per wait. *)
Lemma sensor_serves_frame (pin : DigitalPin) (frame : list bool) (fuel : nat) :
  length frame = 40%nat -> (124 <= fuel)%nat ->
  acquire fuel pin (init (sensorSignal frame)) = Some (Some frame, sensorWorld pin frame).
Proof.
  intros Hl Hf.
  assert (HS : Served (sensorSignal frame) pin 0 124 frame (sensorOps pin frame)).
  { split; [reflexivity|].
    exists 3%nat, 4%nat, [DigitalReadPin pin 1], [DigitalReadPin pin 0]. eexists.
    split; [|split; [|split]].
    - apply (Wait_exit (sensorSignal frame) pin 0 2). discriminate.
    - apply (Wait_exit (sensorSignal frame) pin 1 3). discriminate.
    - pose proof (sensor_Sampling pin (sensorSignal frame) frame
                    [true; false; true; false]) as S.
      rewrite Hl in S. apply S. intros k. reflexivity.
    - reflexivity. }
  rewrite (Served_acquire _ _ _ _ _ _ HS) by (reflexivity || assumption).
  unfold sensorWorld, advance, init. cbn. now rewrite Hl.
Qed.

(** * Further properties of the readers *)

(** ** Range of the packed fields *)

Lemma packField_lt_256 (dataBits : list bool) (n off : nat) :
  (packField dataBits n off < 256)%Q.
Proof.
  rewrite packField_packZ.
  destruct (packZ_bounds dataBits n off) as [_ Hlt].
  assert (P : (0 < pow2 (8 - Z.of_nat n))%Q) by (unfold pow2; now apply Qpower_0_lt).
  assert (E : (inject_Z (2 ^ Z.of_nat n) * pow2 (8 - Z.of_nat n) == 256)%Q).
  { unfold pow2. rewrite Zpower_Qpower by lia.
    rewrite <- Qpower_plus by discriminate.
    replace (Z.of_nat n + (8 - Z.of_nat n)) with 8 by lia. reflexivity. }
  rewrite <- E. apply Qmult_lt_compat_r; [assumption|].
  now rewrite <- Zlt_Qlt.
Qed.

(** X2.  Whatever the array holds, each of the five packed fields lies in
    [0, 256), and so a Celsius or humidity reading lies in [0, 258.56). *)
Theorem packed_fields_in_range (dataBits : list bool) :
  let f := decode dataBits in
  (0 <= RHint f < 256 /\ 0 <= RHdec f < 256 /\ 0 <= Tint f < 256
   /\ 0 <= Tdec f < 256 /\ 0 <= chksum f < 256
   /\ 0 <= toTemperature Celsius f < 25856 # 100
   /\ 0 <= toHumidity f < 25856 # 100)%Q.
Proof.
  cbv zeta.
  pose proof (packField_nonneg dataBits) as N.
  pose proof (packField_lt_256 dataBits) as L.
  cbn [decode RHint RHdec Tint Tdec chksum].
  assert (B : forall a b : Q, (0 <= a < 256 -> 0 <= b < 256 ->
                               0 <= a + b / 100 < 25856 # 100)%Q).
  { intros a b [A0 A1] [B0 B1].
    assert (D0 : (0 <= b / 100)%Q).
    { apply Qle_shift_div_l; [reflexivity|]. now rewrite Qmult_0_l. }
    assert (D1 : (b / 100 < 256 # 100)%Q).
    { apply Qlt_shift_div_r; [reflexivity|].
      eapply Qlt_le_trans; [exact B1|]. discriminate. }
    split.
    - rewrite <- (Qplus_0_r 0). now apply Qplus_le_compat.
    - apply Qlt_le_trans with (256 + (256 # 100))%Q; [|discriminate].
      apply Qplus_lt_le_compat; [assumption|now apply Qlt_le_weak]. }
  do 5 (split; [split; [apply N|apply L]|]).
  split.
  - unfold toTemperature. cbn [scaleValue Z.eqb decode Tint Tdec].
    apply B; (split; [apply N|apply L]).
  - unfold toHumidity. cbn [decode RHint RHdec].
    apply B; (split; [apply N|apply L]).
Qed.

(** ** Frames given by their bytes *)

Lemma bigEndian_from (bits : list bool) (a : Z) :
  fold_left (fun acc (b : bool) => 2 * acc + (if b then 1 else 0)) bits a
  = a * 2 ^ Z.of_nat (length bits) + Spec.bigEndian bits.
Proof.
  unfold Spec.bigEndian. revert a.
  induction bits as [|b bits IH]; intros a.
  - cbn. lia.
  - cbn [fold_left length]. rewrite IH, (IH (2 * 0 + _)).
    rewrite Nat2Z.inj_succ, Z.pow_succ_r by lia. destruct b; ring.
Qed.

Lemma length_bitsOf (n : nat) (z : Z) : length (bitsOf n z) = n.
Proof. induction n as [|n IH]; cbn; congruence. Qed.

(** The bits of a value, read back big-endian, give the value modulo
    [2 ^ n]. *)
Lemma bigEndian_bitsOf (n : nat) (z : Z) :
  Spec.bigEndian (bitsOf n z) = z mod 2 ^ Z.of_nat n.
Proof.
  induction n as [|n IH].
  - cbn. now rewrite Z.mod_1_r.
  - cbn [bitsOf]. unfold Spec.bigEndian. cbn [fold_left].
    rewrite bigEndian_from, length_bitsOf, IH.
    rewrite Nat2Z.inj_succ, Z.pow_succ_r by lia.
    rewrite (Z.mul_comm 2 (2 ^ Z.of_nat n)), Z.rem_mul_r by lia.
    pose proof (Z.testbit_spec' z (Z.of_nat n) ltac:(lia)) as T.
    rewrite <- T. destruct (Z.testbit z (Z.of_nat n)); cbn [Z.b2z]; ring.
Qed.

Lemma pack_frameOfBytes (b0 b1 b2 b3 b4 : Z) :
  0 <= b0 < 256 -> 0 <= b1 < 256 -> 0 <= b2 < 256 -> 0 <= b3 < 256 ->
  0 <= b4 < 256 ->
  Spec.pack (frameOfBytes [b0; b1; b2; b3; b4]) = Spec.mkFrame b0 b1 b2 b3 b4.
Proof.
  intros H0 H1 H2 H3 H4. unfold Spec.pack.
  change (Spec.slice (frameOfBytes [b0; b1; b2; b3; b4]) 0) with (bitsOf 8 b0).
  change (Spec.slice (frameOfBytes [b0; b1; b2; b3; b4]) 1) with (bitsOf 8 b1).
  change (Spec.slice (frameOfBytes [b0; b1; b2; b3; b4]) 2) with (bitsOf 8 b2).
  change (Spec.slice (frameOfBytes [b0; b1; b2; b3; b4]) 3) with (bitsOf 8 b3).
  change (Spec.slice (frameOfBytes [b0; b1; b2; b3; b4]) 4) with (bitsOf 8 b4).
  rewrite !bigEndian_bitsOf. change (2 ^ Z.of_nat 8) with 256.
  now rewrite !Z.mod_small by assumption.
Qed.

Lemma decode_frameOfBytes (b0 b1 b2 b3 b4 : Z) :
  0 <= b0 < 256 -> 0 <= b1 < 256 -> 0 <= b2 < 256 -> 0 <= b3 < 256 ->
  0 <= b4 < 256 ->
  let f := decode (frameOfBytes [b0; b1; b2; b3; b4]) in
  (RHint f == inject_Z b0
   /\ RHdec f == inject_Z b1 + inject_Z b2 / 256
   /\ Tint f == inject_Z b2 + inject_Z b3 / 256 + inject_Z b4 / 65536
   /\ Tdec f == inject_Z b3 + inject_Z b4 / 256
   /\ chksum f == inject_Z b4)%Q.
Proof.
  intros H0 H1 H2 H3 H4. cbv zeta.
  pose proof (decode_slices (frameOfBytes [b0; b1; b2; b3; b4]) eq_refl) as D.
  cbv zeta in D. rewrite pack_frameOfBytes in D by assumption. exact D.
Qed.

(** X3.  For a frame carrying the bytes [b0 .. b4], most significant bit first,
    the packing loops compute [RHint = b0], [RHdec = b1 + b2/256],
    [Tint = b2 + b3/256 + b4/65536], [Tdec = b3 + b4/256] and
    [chksum = b4]; and the bytes are the big-endian values of the frame's
    five 8-bit slices. *)
Theorem decode_of_bytes (b0 b1 b2 b3 b4 : Z) :
  0 <= b0 < 256 -> 0 <= b1 < 256 -> 0 <= b2 < 256 -> 0 <= b3 < 256 ->
  0 <= b4 < 256 ->
  let f := decode (frameOfBytes [b0; b1; b2; b3; b4]) in
  (RHint f == inject_Z b0
   /\ RHdec f == inject_Z b1 + inject_Z b2 / 256
   /\ Tint f == inject_Z b2 + inject_Z b3 / 256 + inject_Z b4 / 65536
   /\ Tdec f == inject_Z b3 + inject_Z b4 / 256
   /\ chksum f == inject_Z b4)%Q
  /\ Spec.pack (frameOfBytes [b0; b1; b2; b3; b4]) = Spec.mkFrame b0 b1 b2 b3 b4.
Proof.
  intros H0 H1 H2 H3 H4. cbv zeta. split.
  - now apply decode_frameOfBytes.
  - now apply pack_frameOfBytes.
Qed.

Lemma decode_of_bytes_witness :
  (0 <= 45 < 256 /\ 0 <= 0 < 256 /\ 0 <= 23 < 256 /\ 0 <= 50 < 256 /\ 0 <= 118 < 256)
  /\ (RHint (decode frameA) == inject_Z 45
      /\ RHdec (decode frameA) == inject_Z 0 + inject_Z 23 / 256
      /\ Tint (decode frameA) == inject_Z 23 + inject_Z 50 / 256 + inject_Z 118 / 65536
      /\ Tdec (decode frameA) == inject_Z 50 + inject_Z 118 / 256
      /\ chksum (decode frameA) == inject_Z 118)%Q
  /\ Spec.pack frameA = Spec.mkFrame 45 0 23 50 118.
Proof.
  split; [lia|].
  apply (decode_of_bytes 45 0 23 50 118); lia.
Defined.

(** ** The checksum test in terms of the bytes *)

Lemma wrap32_small (z : Z) : - 2 ^ 31 <= z < 2 ^ 31 -> wrap32 z = z.
Proof. intros H. unfold wrap32. rewrite Z.mod_small by lia. lia. Qed.

Lemma checksumOk_bytes (b0 b1 b2 b3 b4 : Z) :
  0 <= b0 < 256 -> 0 <= b1 < 256 -> 0 <= b2 < 256 -> 0 <= b3 < 256 ->
  0 <= b4 < 256 ->
  checksumOk (decode (frameOfBytes [b0; b1; b2; b3; b4])) = true
  <-> (b0 + b1 + b2 + b3 + (256 * (b2 + b3 + b4) + b4) / 65536) mod 256 = b4.
Proof.
  intros H0 H1 H2 H3 H4.
  destruct (decode_frameOfBytes b0 b1 b2 b3 b4 H0 H1 H2 H3 H4) as (E0 & E1 & E2 & E3 & E4).
  set (f := decode (frameOfBytes [b0; b1; b2; b3; b4])) in *.
  set (S := b0 + b1 + b2 + b3). set (C := 256 * (b2 + b3 + b4) + b4).
  assert (Hs : (RHint f + RHdec f + Tint f + Tdec f == (S * 65536 + C) # 65536)%Q).
  { rewrite E0, E1, E2, E3, (Qmake_Qdiv (S * 65536 + C) 65536). unfold S, C.
    repeat (rewrite inject_Z_plus || rewrite inject_Z_mult).
    change (inject_Z (Z.pos 65536)) with 65536%Q.
    change (inject_Z 256) with 256%Q.
    field. }
  assert (HC : 0 <= C / 65536 < 4).
  { split; [apply Z.div_pos; unfold C; lia|].
    apply Z.div_lt_upper_bound; unfold C; lia. }
  assert (Hpos : Qle_bool 0 (RHint f + RHdec f + Tint f + Tdec f) = true).
  { apply Qle_bool_iff. rewrite Hs. unfold Qle. cbn. unfold S, C. lia. }
  unfold checksumOk, eqNum, bitAnd, toInt32, trunc. rewrite Hpos.
  rewrite (Qfloor_comp _ _ Hs).
  change (Qfloor ((S * 65536 + C) # 65536)) with ((S * 65536 + C) / 65536).
  rewrite Z.div_add_l by lia.
  rewrite wrap32_small by (unfold S; lia).
  change (wrap32 255) with (Z.ones 8). rewrite Z.land_ones by lia.
  change (2 ^ 8) with 256.
  rewrite Qeq_bool_iff, E4, inject_Z_injective. reflexivity.
Qed.

(** X4.  The program's checksum test, in terms of the frame's bytes: the frame is
    accepted exactly when [b4] equals the byte sum plus a carry, modulo 256,
    where the carry is the whole part of
    [(256 * (b2 + b3 + b4) + b4) / 65536], between 0 and 3. *)
Theorem checksum_test_in_bytes (b0 b1 b2 b3 b4 : Z) :
  0 <= b0 < 256 -> 0 <= b1 < 256 -> 0 <= b2 < 256 -> 0 <= b3 < 256 ->
  0 <= b4 < 256 ->
  (checksumOk (decode (frameOfBytes [b0; b1; b2; b3; b4])) = true
   <-> (b0 + b1 + b2 + b3 + (256 * (b2 + b3 + b4) + b4) / 65536) mod 256 = b4)
  /\ 0 <= (256 * (b2 + b3 + b4) + b4) / 65536 <= 3.
Proof.
  intros H0 H1 H2 H3 H4. split; [now apply checksumOk_bytes|].
  split; [apply Z.div_pos; lia|].
  apply Z.lt_succ_r. apply Z.div_lt_upper_bound; lia.
Qed.

Lemma checksum_test_in_bytes_witness :
  (0 <= 0 < 256 /\ 0 <= 128 < 256 /\ 0 <= 1 < 256)
  /\ (checksumOk (decode frameC) = true
      <-> (0 + 0 + 128 + 128 + (256 * (128 + 128 + 1) + 1) / 65536) mod 256 = 1)
  /\ 0 <= (256 * (128 + 128 + 1) + 1) / 65536 <= 3.
Proof.
  split; [lia|].
  apply (checksum_test_in_bytes 0 0 128 128 1); lia.
Defined.

(** X5.  When [256 * (b2 + b3 + b4) + b4 < 65536] the carry is zero and the
    program accepts the frame exactly when the checksum byte is the sum of
    the four data bytes modulo 256. *)
Theorem checksum_test_is_byte_sum_without_carry (b0 b1 b2 b3 b4 : Z) :
  0 <= b0 < 256 -> 0 <= b1 < 256 -> 0 <= b2 < 256 -> 0 <= b3 < 256 ->
  0 <= b4 < 256 ->
  256 * (b2 + b3 + b4) + b4 < 65536 ->
  (checksumOk (decode (frameOfBytes [b0; b1; b2; b3; b4])) = true
   <-> Spec.valid (Spec.pack (frameOfBytes [b0; b1; b2; b3; b4]))).
Proof.
  intros H0 H1 H2 H3 H4 Hc.
  rewrite checksumOk_bytes, pack_frameOfBytes by assumption.
  unfold Spec.valid. cbn [Spec.checksum Spec.humidityInteger Spec.humidityFraction
    Spec.temperatureInteger Spec.temperatureFraction].
  rewrite Z.div_small by lia. rewrite Z.add_0_r. split; intros E; now symmetry.
Qed.

Lemma checksum_test_is_byte_sum_without_carry_witness :
  (0 <= 45 < 256 /\ 0 <= 0 < 256 /\ 0 <= 23 < 256 /\ 0 <= 50 < 256 /\ 0 <= 118 < 256)
  /\ 256 * (23 + 50 + 118) + 118 < 65536
  /\ (checksumOk (decode frameA) = true <-> Spec.valid (Spec.pack frameA)).
Proof.
  split; [lia|]. split; [lia|].
  apply (checksum_test_is_byte_sum_without_carry 45 0 23 50 118); lia.
Defined.

(** ** The sentinels *)

Lemma temperature_inv (fuel : nat) (s : TemperatureScale) (pin : DigitalPin)
    (w w' : World) (r : number) :
  kodely.temperature fuel s pin w = Some (r, w') ->
  exists a, acquire fuel pin w = Some (a, w')
            /\ r = match a with None => (-1)%Q | Some bits => temperatureOfBits s bits end.
Proof.
  intros H. destruct (acquire fuel pin w) as [[a w'']|] eqn:A.
  - rewrite (temperature_of_acquire _ _ _ _ _ _ A) in H. injection H as <- <-. eauto.
  - now rewrite temperature_spins in H.
Qed.

Lemma reportHumidity_spec (bits : list bool) (w : World) :
  reportHumidity bits w
  = Some (humidityOfBits bits,
          mkWorld (signal w) (reads w) (pinOps w)
            (serialOut w ++ (if checksumOk (decode bits) then []
                             else reportLines (decode bits)))).
Proof.
  unfold reportHumidity, humidityOfBits. cbv zeta.
  generalize (decode bits). intros f. destruct (checksumOk f).
  - unfold ret. rewrite app_nil_r. now destruct w.
  - unfold bind, serial.writeLine, ret, reportLines.
    cbn [signal reads pinOps serialOut]. now rewrite <- !app_assoc.
Qed.

Lemma relativeHumidity_inv (fuel : nat) (pin : DigitalPin) (w w' : World) (r : number) :
  kodely.relativeHumidity fuel pin w = Some (r, w') ->
  exists a w'', acquire fuel pin w = Some (a, w'')
    /\ signal w' = signal w'' /\ reads w' = reads w'' /\ pinOps w' = pinOps w''
    /\ match a with
       | None => r = (-1)%Q /\ w' = w''
       | Some bits =>
           r = humidityOfBits bits
           /\ serialOut w' = serialOut w''
                             ++ (if checksumOk (decode bits) then []
                                 else reportLines (decode bits))
       end.
Proof.
  intros H. destruct (acquire fuel pin w) as [[a w'']|] eqn:A.
  - rewrite (relativeHumidity_of_acquire _ _ _ _ _ A) in H. exists a, w''.
    split; [reflexivity|]. destruct a as [bits|].
    + rewrite reportHumidity_spec in H.
      remember (humidityOfBits bits) as h eqn:Eh.
      remember (if checksumOk (decode bits) then [] else reportLines (decode bits))
        as lines eqn:El.
      injection H as <- <-. cbn [signal reads pinOps serialOut]. auto.
    + unfold ret in H. injection H as <- <-. auto.
  - now rewrite relativeHumidity_spins in H.
Qed.

Lemma temperatureOfBits_reading (s : TemperatureScale) (bits : list bool) :
  checksumOk (decode bits) = true ->
  temperatureOfBits s bits = toTemperature s (decode bits).
Proof. intros H. unfold temperatureOfBits. now rewrite H. Qed.

(** X1.  A result of [temperature] is [-1] exactly when the acknowledge sample was
    high, and [-999] exactly when 40 bits were sampled and failed the
    checksum test; any other result is a reading and is not negative.  So the
    two sentinels never stand for a reading. *)
Theorem temperature_sentinels_are_unambiguous (fuel : nat) (s : TemperatureScale)
    (pin : DigitalPin) (w w' : World) (r : number) :
  kodely.temperature fuel s pin w = Some (r, w') ->
  ((r == -1)%Q <-> signal w (S (reads w)) = true)
  /\ ((r == -999)%Q <->
      exists bits, acquire fuel pin w = Some (Some bits, w')
                   /\ checksumOk (decode bits) = false)
  /\ (~ (r == -1)%Q -> ~ (r == -999)%Q ->
      (0 <= r)%Q /\ exists bits, acquire fuel pin w = Some (Some bits, w')
                                 /\ r = toTemperature s (decode bits)).
Proof.
  intros H. apply temperature_inv in H. destruct H as [a [A ->]].
  pose proof (acquire_inv _ _ _ _ _ A) as I.
  destruct I as [[-> [Hack _]]|[bits [q [ops [-> [[Hack _] _]]]]]]; cbv beta iota.
  - split; [split; [auto|reflexivity]|]. split.
    + split; [discriminate|]. intros [bits [E _]]. rewrite A in E. discriminate.
    + intros N. exfalso. now apply N.
  - destruct (temperatureOfBits_sentinel s bits) as [I1 N1].
    pose proof (temperatureOfBits_reading s bits) as R.
    pose proof (toTemperature_nonneg s bits) as P.
    generalize dependent (temperatureOfBits s bits). intros t I1 N1 R.
    split; [split; [tauto|congruence]|]. split.
    + rewrite I1. split; [eauto|]. intros [b [E Hb]]. rewrite A in E.
      now injection E as ->.
    + intros _ N999. destruct (checksumOk (decode bits)).
      * rewrite R by reflexivity. eauto.
      * exfalso. apply N999, I1. reflexivity.
Qed.

Lemma temperature_sentinels_are_unambiguous_witness :
  kodely.temperature 1 Kelvin 7 (init (sensorSignal frameB))
  = Some ((-999)%Q, sensorWorld 7 frameB)
  /\ (((-999) == -1)%Q <-> signal (init (sensorSignal frameB))
                             (S (reads (init (sensorSignal frameB)))) = true)
  /\ (((-999) == -999)%Q <->
      exists bits, acquire 1 7 (init (sensorSignal frameB))
                   = Some (Some bits, sensorWorld 7 frameB)
                   /\ checksumOk (decode bits) = false)
  /\ (~ ((-999) == -1)%Q -> ~ ((-999) == -999)%Q ->
      (0 <= -999)%Q
      /\ exists bits, acquire 1 7 (init (sensorSignal frameB))
                      = Some (Some bits, sensorWorld 7 frameB)
                      /\ (-999)%Q = toTemperature Kelvin (decode bits)).
Proof.
  split; [vm_compute; reflexivity|].
  apply (temperature_sentinels_are_unambiguous 1 Kelvin 7 (init (sensorSignal frameB))).
  vm_compute; reflexivity.
Defined.

(** ** Serial output *)

(** X6.  [temperature] never writes to the serial port.  [relativeHumidity]
    writes nothing when it returns [-1] or a reading, and exactly the three
    lines RH, T and chk with the packed fields when it returns [-999]. *)
Theorem serial_output_only_on_humidity_checksum_failure (fuel : nat)
    (pin : DigitalPin) (w : World) :
  (forall s r w', kodely.temperature fuel s pin w = Some (r, w') ->
                  serialOut w' = serialOut w)
  /\ (forall r w', kodely.relativeHumidity fuel pin w = Some (r, w') ->
        (~ (r == -999)%Q -> serialOut w' = serialOut w)
        /\ ((r == -999)%Q ->
            exists bits w'', acquire fuel pin w = Some (Some bits, w'')
              /\ serialOut w' = serialOut w ++ reportLines (decode bits))).
Proof.
  assert (K : forall a w'', acquire fuel pin w = Some (a, w'') ->
                            serialOut w'' = serialOut w).
  { intros a w'' A. apply acquire_inv in A.
    destruct A as [[_ [_ ->]]|[bits [q [ops [_ [_ ->]]]]]]; reflexivity. }
  split.
  - intros s r w' H. apply temperature_inv in H. destruct H as [a [A _]]. eauto.
  - intros r w' H. apply relativeHumidity_inv in H.
    destruct H as [a [w'' [A [_ [_ [_ H]]]]]]. pose proof (K _ _ A) as Ks.
    destruct a as [bits|].
    + destruct H as [-> Hser].
      destruct (humidityOfBits_sentinel bits) as [I _].
      destruct (checksumOk (decode bits)) eqn:Ck.
      * rewrite app_nil_r in Hser. split; [congruence|].
        intros E. apply I in E. discriminate.
      * split; [intros N; exfalso; apply N; now apply I|].
        intros _. exists bits, w''. split; [assumption|congruence].
    + destruct H as [-> ->]. split; [auto|]. discriminate.
Qed.

(** ** What a read does to the pin *)

Lemma Wait_quiet sig pin v p q ops :
  Wait sig pin v p q ops ->
  Forall (quiet pin) ops /\ (p + readCount ops = q)%nat.
Proof.
  induction 1 as [p Hp|p q ops Hp HW [IH1 IH2]].
  - split; [repeat constructor|]. cbn. lia.
  - split; [constructor; [reflexivity|assumption]|].
    unfold readCount in *. cbn [List.filter isRead length]. lia.
Qed.

Lemma readCount_app (a b : list PinOp) :
  readCount (a ++ b) = (readCount a + readCount b)%nat.
Proof. unfold readCount. now rewrite List.filter_app, length_app. Qed.

Lemma Sampling_quiet sig pin n p q bits ops :
  Sampling sig pin n p q bits ops ->
  Forall (quiet pin) ops /\ (p + readCount ops = q)%nat /\ (3 * n <= readCount ops)%nat.
Proof.
  induction 1 as [p|n p p1 p2 q o1 o2 bits ops W1 W2 HS [IH1 [IH2 IH3]]].
  - split; [constructor|]. cbn. lia.
  - pose proof (Wait_lt _ _ _ _ _ _ W1). pose proof (Wait_lt _ _ _ _ _ _ W2).
    apply Wait_quiet in W1, W2. destruct W1 as [Q1 C1]. destruct W2 as [Q2 C2].
    split; [|split].
    + rewrite !Forall_app. repeat split; try assumption.
      repeat constructor.
    + rewrite !readCount_app. change (readCount [WaitMicros 28; _]) with 1%nat. lia.
    + rewrite !readCount_app. change (readCount [WaitMicros 28; _]) with 1%nat. lia.
Qed.

(** X7.  Whatever a read returns, its pin operations are the start signal (write
    0, pause 18 ms, pull up) followed only by reads of the same pin and
    microsecond waits: it writes the pin once, never touches another pin, and
    the number of samples it consumed is the number of reads it logged, at
    least 2, and at least 124 when it got past the acknowledge sample. *)
Theorem read_only_observes_after_start (fuel : nat) (s : TemperatureScale)
    (pin : DigitalPin) (w w' : World) (r : number) :
  kodely.temperature fuel s pin w = Some (r, w')
  \/ kodely.relativeHumidity fuel pin w = Some (r, w') ->
  exists tail,
    pinOps w' = pinOps w ++ [DigitalWritePin pin 0; Pause 18; SetPull pin PullUp] ++ tail
    /\ Forall (quiet pin) tail
    /\ reads w' = (reads w + readCount tail)%nat
    /\ (2 <= readCount tail)%nat
    /\ (~ (r == -1)%Q -> (124 <= readCount tail)%nat).
Proof.
  intros H.
  assert (G : exists a w'', acquire fuel pin w = Some (a, w'')
                /\ reads w' = reads w'' /\ pinOps w' = pinOps w''
                /\ (a = None -> r = (-1)%Q)).
  { destruct H as [H|H].
    - apply temperature_inv in H. destruct H as [a [A ->]]. exists a, w'.
      repeat split; try assumption. now intros ->.
    - apply relativeHumidity_inv in H. destruct H as [a [w'' [A [_ [Hr [Hp Hm]]]]]].
      exists a, w''. repeat split; try assumption. intros ->. now destruct Hm. }
  destruct G as [a [w'' [A [-> [-> Hnone]]]]]. clear H.
  apply acquire_inv in A.
  destruct A as [[-> [_ ->]]|[bits [q [ops [-> [HS ->]]]]]].
  - eexists. split; [reflexivity|]. cbn [advance reads].
    split; [repeat constructor|]. split; [cbn; lia|]. split; [cbn; lia|].
    intros N. exfalso. apply N. now rewrite Hnone.
  - destruct HS as [Hack [p1 [p2 [o1 [o2 [o3 [W1 [W2 [HS ->]]]]]]]]].
    pose proof (Wait_lt _ _ _ _ _ _ W1). pose proof (Wait_lt _ _ _ _ _ _ W2).
    apply Wait_quiet in W1, W2. apply Sampling_quiet in HS.
    destruct W1 as [Q1 C1]. destruct W2 as [Q2 C2]. destruct HS as [Q3 [C3 M3]].
    exists ([DigitalReadPin pin (levelValue (signal w (reads w))); WaitMicros 40;
             DigitalReadPin pin (levelValue (signal w (S (reads w))))]
            ++ o1 ++ o2 ++ o3).
    cbn [advance reads pinOps]. split; [reflexivity|].
    split; [rewrite !Forall_app; repeat split; try assumption; repeat constructor|].
    rewrite !readCount_app.
    change (readCount [DigitalReadPin pin _; WaitMicros 40; DigitalReadPin pin _])
      with 2%nat.
    repeat split; lia.
Qed.

Lemma read_only_observes_after_start_witness :
  (kodely.temperature 1 Celsius 7 (init (sensorSignal frameB))
   = Some ((-999)%Q, sensorWorld 7 frameB)
   \/ kodely.relativeHumidity 1 7 (init (sensorSignal frameB))
      = Some ((-999)%Q, sensorWorld 7 frameB))
  /\ exists tail,
       pinOps (sensorWorld 7 frameB)
       = pinOps (init (sensorSignal frameB))
         ++ [DigitalWritePin 7 0; Pause 18; SetPull 7 PullUp] ++ tail
       /\ Forall (quiet 7) tail
       /\ reads (sensorWorld 7 frameB)
          = (reads (init (sensorSignal frameB)) + readCount tail)%nat
       /\ (2 <= readCount tail)%nat
       /\ (~ ((-999) == -1)%Q -> (124 <= readCount tail)%nat).
Proof.
  split; [left; vm_compute; reflexivity|].
  apply (read_only_observes_after_start 1 Celsius 7 (init (sensorSignal frameB))).
  left. vm_compute; reflexivity.
Defined.

(** ** The simulated sensor, as a round trip *)

Lemma sensor_serves_frame_witness :
  length frameC = 40%nat /\ (124 <= 200)%nat
  /\ acquire 200 7 (init (sensorSignal frameC)) = Some (Some frameC, sensorWorld 7 frameC).
Proof.
  split; [reflexivity|]. split; [lia|].
  apply (sensor_serves_frame 7 frameC 200); [reflexivity|lia].
Defined.

(** ** A read depends only on the line ahead *)

Lemma sameFuture_refl (w : World) : sameFuture w w.
Proof. intros k. reflexivity. Qed.

Lemma Local_ret {A : Type} (a : A) : Local (ret a).
Proof.
  intros w1 w2 R. unfold ret. split; [reflexivity|]. split; [assumption|].
  exists [], [], 0%nat. now rewrite !app_nil_r, !Nat.add_0_r.
Qed.

Lemma Local_bind {A B : Type} (m : Exec A) (k : A -> Exec B) :
  Local m -> (forall a, Local (k a)) -> Local (bind m k).
Proof.
  intros Hm Hk w1 w2 R. specialize (Hm w1 w2 R). unfold bind.
  destruct (m w1) as [[a1 w1']|], (m w2) as [[a2 w2']|]; try contradiction; [|exact I].
  destruct Hm as [-> [R' [ops [lines [n (P1 & P2 & S1 & S2 & N1 & N2)]]]]].
  specialize (Hk a2 w1' w2' R').
  destruct (k a2 w1') as [[b1 v1]|], (k a2 w2') as [[b2 v2]|]; try contradiction;
    [|exact I].
  destruct Hk as [-> [R'' [ops' [lines' [n' (P1' & P2' & S1' & S2' & N1' & N2')]]]]].
  split; [reflexivity|]. split; [assumption|].
  exists (ops ++ ops'), (lines ++ lines'), (n + n')%nat.
  rewrite P1', P2', S1', S2', N1', N2', P1, P2, S1, S2, N1, N2, !app_assoc.
  repeat split; lia.
Qed.

Lemma Local_logOp (op : PinOp) : Local (logOp op).
Proof.
  intros w1 w2 R. unfold logOp. split; [reflexivity|]. split; [exact R|].
  exists [op], [], 0%nat. cbn. now rewrite !app_nil_r, !Nat.add_0_r.
Qed.

Lemma Local_writeLine (l : SerialLine) : Local (serial.writeLine l).
Proof.
  intros w1 w2 R. unfold serial.writeLine. split; [reflexivity|]. split; [exact R|].
  exists [], [l], 0%nat. cbn. now rewrite !app_nil_r, !Nat.add_0_r.
Qed.

Lemma Local_digitalReadPin (pin : DigitalPin) : Local (pins.digitalReadPin pin).
Proof.
  intros w1 w2 R. unfold pins.digitalReadPin. cbv zeta.
  pose proof (R 0%nat) as R0. rewrite !Nat.add_0_r in R0. rewrite R0.
  split; [reflexivity|]. split.
  - intros k. cbn [signal reads]. specialize (R (S k)).
    now rewrite !Nat.add_succ_r in R.
  - exists [DigitalReadPin pin (levelValue (signal w2 (reads w2)))], [], 1%nat.
    cbn. rewrite !app_nil_r. repeat split; lia.
Qed.

Lemma Local_whileReadEq (fuel : nat) (pin : DigitalPin) (v : Z) :
  Local (whileReadEq fuel pin v).
Proof.
  induction fuel as [|fuel IH]; [intros w1 w2 _; exact I|].
  cbn [whileReadEq]. apply Local_bind; [apply Local_digitalReadPin|].
  intros x. destruct (x =? v); [exact IH|apply Local_ret].
Qed.

Lemma Local_forFrom {S : Type} (body : nat -> S -> Exec S) :
  (forall i s, Local (body i s)) ->
  forall n i s, Local (forFrom n i body s).
Proof.
  intros Hb. induction n as [|n IH]; intros i s; cbn [forFrom].
  - apply Local_ret.
  - apply Local_bind; [apply Hb|]. intros s'. apply IH.
Qed.

Ltac local_step :=
  first
    [ apply Local_ret
    | apply Local_logOp
    | apply Local_writeLine
    | apply Local_digitalReadPin
    | apply Local_whileReadEq
    | apply Local_bind; [|intros ?]
    | apply Local_forFrom; intros ? ?
    | match goal with |- Local (if ?c then _ else _) => destruct c end ].

(** X8.  The result of a read, the pin operations it performs, the serial lines
    it writes and the number of samples it consumes depend only on how the
    line behaves from the call on: started in two worlds whose lines behave
    alike from then on, whatever was done or written before, the reader
    returns in both or in neither, with the same result and the same
    operations, and leaves the two lines again in step.  The readers keep no
    state between calls. *)
Theorem readers_depend_only_on_the_line_ahead (fuel : nat) (s : TemperatureScale)
    (pin : DigitalPin) :
  Local (kodely.temperature fuel s pin) /\ Local (kodely.relativeHumidity fuel pin).
Proof.
  split.
  - unfold kodely.temperature, forUpTo, pins.digitalWritePin, basic.pause,
      pins.setPull, control.waitMicros. cbv zeta.
    repeat local_step.
  - unfold kodely.relativeHumidity, forUpTo, pins.digitalWritePin, basic.pause,
      pins.setPull, control.waitMicros. cbv zeta.
    repeat local_step.
Qed.

Lemma temperature_Local (fuel : nat) (s : TemperatureScale) (pin : DigitalPin) :
  Local (kodely.temperature fuel s pin).
Proof.
  unfold kodely.temperature, forUpTo, pins.digitalWritePin, basic.pause,
    pins.setPull, control.waitMicros. cbv zeta.
  repeat local_step.
Qed.

(** X9.  Two reads in a row: when the line, after a temperature read that
    returned [r], behaves as it did before that read, the next read returns
    [r] again after the same pin operations. *)
Theorem repeated_read_gives_same_value (fuel : nat) (s : TemperatureScale)
    (pin : DigitalPin) (w w' : World) (r : number) :
  kodely.temperature fuel s pin w = Some (r, w') ->
  sameFuture w w' ->
  exists w'' ops,
    kodely.temperature fuel s pin w' = Some (r, w'')
    /\ pinOps w' = pinOps w ++ ops /\ pinOps w'' = pinOps w' ++ ops
    /\ (reads w'' - reads w' = reads w' - reads w)%nat.
Proof.
  intros H R. pose proof (temperature_Local fuel s pin w w' R) as L.
  rewrite H in L.
  destruct (kodely.temperature fuel s pin w') as [[r2 w'']|]; [|contradiction].
  destruct L as [<- [_ [ops [lines [n (P1 & P2 & _ & _ & N1 & N2)]]]]].
  exists w'', ops. repeat split; try assumption. lia.
Qed.

Lemma repeatingSignal_sameFuture (frame : list bool) (w' : World) :
  signal w' = repeatingSignal frame -> reads w' = 124%nat ->
  sameFuture (init (repeatingSignal frame)) w'.
Proof.
  intros Hs Hr k. rewrite Hs, Hr. cbn [init signal reads]. rewrite Nat.add_0_l.
  unfold repeatingSignal. f_equal.
  replace (124 + k)%nat with (k + 1 * 124)%nat by lia.
  now rewrite Nat.Div0.mod_add.
Qed.

Lemma repeated_read_gives_same_value_witness :
  let w := init (repeatingSignal frameA) in
  let w' := mkWorld (repeatingSignal frameA) 124 (sensorOps 7 frameA) [] in
  kodely.temperature 1 Celsius 7 w = Some (temperatureOfBits Celsius frameA, w')
  /\ sameFuture w w'
  /\ exists w'' ops,
       kodely.temperature 1 Celsius 7 w' = Some (temperatureOfBits Celsius frameA, w'')
       /\ pinOps w' = pinOps w ++ ops /\ pinOps w'' = pinOps w' ++ ops
       /\ (reads w'' - reads w' = reads w' - reads w)%nat.
Proof.
  cbv zeta.
  assert (H : kodely.temperature 1 Celsius 7 (init (repeatingSignal frameA))
              = Some (temperatureOfBits Celsius frameA,
                      mkWorld (repeatingSignal frameA) 124 (sensorOps 7 frameA) []))
    by (vm_compute; reflexivity).
  assert (R : sameFuture (init (repeatingSignal frameA))
                (mkWorld (repeatingSignal frameA) 124 (sensorOps 7 frameA) []))
    by (apply repeatingSignal_sameFuture; reflexivity).
  split; [exact H|]. split; [exact R|].
  exact (repeated_read_gives_same_value 1 Celsius 7 _ _ _ H R).
Defined.

(** * The other blocks *)

(** ** Light level and soil moisture *)

(** X11.  Provided the host's [pins.map] from 0..1023 to 0..100 is monotone and
    sends 0 to 0 and 1023 to 100, a pin level between 0 and 1023 gives a
    light level that is a whole number between 0 and 100, a higher pin level
    never gives a lower light level, the levels 0 and 1023 give exactly 0 and
    100, and [soilMoisture] computes the same value as [lightlevel]. *)
Theorem analog_levels_are_whole_percentages (pinsMap : HostMap)
    (level level' : AnalogPin -> number) (Pin : AnalogPin) :
  (forall v v' : number, (0 <= v)%Q -> (v <= v')%Q -> (v' <= 1023)%Q ->
      (pinsMap v 0 1023 0 100 <= pinsMap v' 0 1023 0 100)%Q) ->
  (pinsMap 0 0 1023 0 100 == 0)%Q ->
  (pinsMap 1023 0 1023 0 100 == 100)%Q ->
  (0 <= level Pin)%Q -> (level Pin <= level' Pin)%Q -> (level' Pin <= 1023)%Q ->
  (exists n : Z, lightlevel pinsMap level Pin = inject_Z n /\ 0 <= n <= 100)
  /\ (lightlevel pinsMap level Pin <= lightlevel pinsMap level' Pin)%Q
  /\ soilMoisture pinsMap level Pin = lightlevel pinsMap level Pin
  /\ (level Pin = 0%Q -> lightlevel pinsMap level Pin = inject_Z 0)
  /\ (level Pin = 1023%Q -> lightlevel pinsMap level Pin = inject_Z 100).
Proof.
  intros Hmono H0 H1 L0 L1 L2.
  unfold lightlevel, soilMoisture, Math.round. cbv zeta.
  assert (B0 : (0 <= pinsMap (level Pin) 0 1023 0 100)%Q).
  { apply Qle_trans with (pinsMap 0 0 1023 0 100)%Q; [rewrite H0; apply Qle_refl|].
    apply Hmono; [apply Qle_refl|assumption|].
    now apply Qle_trans with (level' Pin). }
  assert (B1 : (pinsMap (level Pin) 0 1023 0 100 <= 100)%Q).
  { apply Qle_trans with (pinsMap 1023 0 1023 0 100)%Q; [|rewrite H1; apply Qle_refl].
    apply Hmono; [assumption| |apply Qle_refl].
    now apply Qle_trans with (level' Pin). }
  split; [|split; [|split; [|split]]].
  - eexists. split; [reflexivity|]. split.
    + change 0 with (Qfloor (0 + (1 # 2))). apply Qfloor_resp_le.
      now apply Qplus_le_compat; [|apply Qle_refl].
    + change 100 with (Qfloor (100 + (1 # 2))). apply Qfloor_resp_le.
      now apply Qplus_le_compat; [|apply Qle_refl].
  - rewrite <- Zle_Qle. apply Qfloor_resp_le.
    apply Qplus_le_compat; [|apply Qle_refl]. now apply Hmono.
  - reflexivity.
  - intros ->. f_equal. rewrite (Qfloor_comp _ (0 + (1 # 2))); [reflexivity|].
    now rewrite H0.
  - intros ->. f_equal. rewrite (Qfloor_comp _ (100 + (1 # 2))); [reflexivity|].
    now rewrite H1.
Qed.

Lemma linearMap_mono (v v' : number) :
  (0 <= v)%Q -> (v <= v')%Q -> (v' <= 1023)%Q ->
  (linearMap v 0 1023 0 100 <= linearMap v' 0 1023 0 100)%Q.
Proof.
  intros _ H _. unfold linearMap.
  apply Qplus_le_compat; [|apply Qle_refl].
  apply Qmult_le_compat_r; [|discriminate].
  apply Qmult_le_compat_r; [|discriminate].
  apply Qplus_le_compat; [assumption|apply Qle_refl].
Qed.

Lemma analog_levels_are_whole_percentages_witness :
  ((0 <= 512)%Q /\ (512 <= 600)%Q /\ (600 <= 1023)%Q)
  /\ (exists n : Z, lightlevel linearMap (fun _ => 512%Q) 2 = inject_Z n /\ 0 <= n <= 100)
  /\ Qle (lightlevel linearMap (fun _ => 512%Q) 2) (lightlevel linearMap (fun _ => 600%Q) 2)
  /\ soilMoisture linearMap (fun _ => 512%Q) 2 = lightlevel linearMap (fun _ => 512%Q) 2
  /\ (512%Q = 0%Q -> lightlevel linearMap (fun _ => 512%Q) 2 = inject_Z 0)
  /\ (512%Q = 1023%Q -> lightlevel linearMap (fun _ => 512%Q) 2 = inject_Z 100).
Proof.
  split; [repeat split; discriminate|].
  apply (analog_levels_are_whole_percentages linearMap (fun _ => 512%Q) (fun _ => 600%Q) 2).
  - exact linearMap_mono.
  - reflexivity.
  - reflexivity.
  - discriminate.
  - discriminate.
  - discriminate.
Defined.

(** ** Switching LEDs *)

Lemma runLED_snoc (calls : list (bool * AnalogPin)) (c : bool * AnalogPin)
    (st : AnalogState) :
  runLED (calls ++ [c]) st = fold_left analogStep (turnLED (fst c) (snd c)) (runLED calls st).
Proof. unfold runLED. now rewrite fold_left_app. Qed.

Lemma lastCall_snoc (pin : AnalogPin) (calls : list (bool * AnalogPin))
    (c : bool * AnalogPin) :
  lastCall pin (calls ++ [c])
  = if snd c =? pin then Some (fst c) else lastCall pin calls.
Proof. unfold lastCall. now rewrite fold_left_app. Qed.

Lemma everOn_snoc (pin : AnalogPin) (calls : list (bool * AnalogPin))
    (c : bool * AnalogPin) :
  everOn pin (calls ++ [c]) = everOn pin calls || (fst c && (snd c =? pin)).
Proof. unfold everOn. rewrite existsb_app. cbn. now rewrite orb_false_r. Qed.

(** X12.  After any sequence of [turnLED] calls, from any state of the outputs:
    the value last written to a pin is 100 or 0 as the last call addressed to
    that pin said on or off, and is untouched if no call addressed it; the
    pin's period is 100 if some call turned it on, and otherwise untouched.
    So a call never disturbs another pin, and turning an LED off does not
    reset its period. *)
Theorem led_outputs_after_calls (calls : list (bool * AnalogPin)) (st : AnalogState)
    (pin : AnalogPin) :
  duty (runLED calls st) !! pin
  = match lastCall pin calls with
    | Some ledonoff => Some (if ledonoff then 100 else 0)
    | None => duty st !! pin
    end
  /\ period (runLED calls st) !! pin
     = if everOn pin calls then Some 100 else period st !! pin.
Proof.
  induction calls as [|[b p] calls [IH1 IH2]] using rev_ind.
  - split; reflexivity.
  - rewrite runLED_snoc, lastCall_snoc, everOn_snoc. cbn [fst snd].
    destruct (Z.eqb_spec p pin) as [->|Hne].
    + destruct b; cbn [turnLED fold_left analogStep duty period].
      * rewrite !lookup_insert_eq, orb_true_r. split; reflexivity.
      * rewrite lookup_insert_eq, orb_false_r. split; [reflexivity|exact IH2].
    + rewrite andb_false_r, orb_false_r.
      destruct b; cbn [turnLED fold_left analogStep duty period];
        rewrite ?lookup_insert_ne by assumption; split; assumption.
Qed.

(** ** Motor, motion sensor and a read on a shared pin *)






(** ** The ring animation *)

Lemma foreverBody_eq (ring : Strip) : foreverBody ring = forPure 9 ringStep ring.
Proof. reflexivity. Qed.

Lemma noRed_atMostOneRed (frame : gmap nat Color) : noRed frame -> atMostOneRed frame.
Proof. intros H o1 o2 H1 _. now apply H in H1. Qed.

Lemma ring_loop (n : nat) (ring : Strip) :
  noRed (requested ring) ->
  exists frames,
    shown (forPure n ringStep ring) = shown ring ++ frames
    /\ length frames = (2 * n)%nat
    /\ Forall atMostOneRed frames
    /\ noRed (requested (forPure n ringStep ring))
    /\ (forall o, (o < n)%nat ->
          requested (forPure n ringStep ring) !! o = Some (rgb 16 16 16))
    /\ (forall o, (n <= o)%nat ->
          requested (forPure n ringStep ring) !! o = requested ring !! o).
Proof.
  intros H0. induction n as [|n IH].
  - exists []. unfold forPure. cbn. rewrite app_nil_r.
    repeat split; try assumption; [constructor|intros; lia].
  - destruct IH as [frames (Hs & Hl & Hf & Hn & Hlow & Hhigh)].
    rewrite forPure_S. set (r := forPure n ringStep ring) in *.
    exists (frames ++ [<[n := colorsRed]> (requested r);
                       <[n := rgb 16 16 16]> (<[n := colorsRed]> (requested r))]).
    assert (N2 : noRed (<[n := rgb 16 16 16]> (<[n := colorsRed]> (requested r)))).
    { intros o. destruct (Nat.eq_dec o n) as [->|Hne].
      - rewrite lookup_insert_eq. discriminate.
      - rewrite !lookup_insert_ne by congruence. apply Hn. }
    unfold ringStep, show, setPixelColor. cbn [requested shown].
    split; [now rewrite Hs, <- !app_assoc|].
    split; [rewrite length_app; cbn; lia|].
    split; [|split; [exact N2|split]].
    + apply Forall_app. split; [assumption|].
      constructor; [|constructor; [now apply noRed_atMostOneRed|constructor]].
      intros o1 o2 H1 H2.
      destruct (Nat.eq_dec o1 n) as [->|N1]; destruct (Nat.eq_dec o2 n) as [->|N3];
        try reflexivity.
      * rewrite lookup_insert_ne in H2 by congruence. now apply Hn in H2.
      * rewrite lookup_insert_ne in H1 by congruence. now apply Hn in H1.
      * rewrite lookup_insert_ne in H1 by congruence. now apply Hn in H1.
    + intros o Ho. destruct (Nat.eq_dec o n) as [->|Hne].
      * now rewrite lookup_insert_eq.
      * rewrite !lookup_insert_ne by congruence. apply Hlow. lia.
    + intros o Ho. rewrite !lookup_insert_ne by lia. apply Hhigh. lia.
Qed.

(** X14.  One pass of the animation, started with no offset requested red, shows
    18 frames, in each of which at most one offset is red, and ends with no
    offset red, so the next pass starts the same way.  It leaves the offsets
    0 to 8 at rgb(16, 16, 16), among them offset 8, one more than the eight
    offsets 0..7 of the ring created with 8 pixels, and does not touch any
    offset above 8. *)
Theorem animation_pass (ring : Strip) :
  noRed (requested ring) ->
  exists frames,
    shown (foreverBody ring) = shown ring ++ frames
    /\ length frames = 18%nat
    /\ Forall atMostOneRed frames
    /\ noRed (requested (foreverBody ring))
    /\ (forall o, (o <= 8)%nat -> requested (foreverBody ring) !! o = Some (rgb 16 16 16))
    /\ (forall o, (8 < o)%nat -> requested (foreverBody ring) !! o = requested ring !! o).
Proof.
  intros H. rewrite foreverBody_eq.
  destruct (ring_loop 9 ring H) as [frames (Hs & Hl & Hf & Hn & Hlow & Hhigh)].
  exists frames.
  split; [assumption|]. split; [assumption|]. split; [assumption|].
  split; [assumption|]. split.
  - intros o Ho. apply Hlow. lia.
  - intros o Ho. apply Hhigh. lia.
Qed.

Lemma animation_pass_witness :
  noRed (requested (mkStrip ∅ []))
  /\ exists frames,
       shown (foreverBody (mkStrip ∅ [])) = shown (mkStrip ∅ []) ++ frames
       /\ length frames = 18%nat
       /\ Forall atMostOneRed frames
       /\ noRed (requested (foreverBody (mkStrip ∅ [])))
       /\ (forall o, (o <= 8)%nat ->
             requested (foreverBody (mkStrip ∅ [])) !! o = Some (rgb 16 16 16))
       /\ (forall o, (8 < o)%nat ->
             requested (foreverBody (mkStrip ∅ [])) !! o
             = requested (mkStrip ∅ []) !! o).
Proof.
  assert (H : noRed (requested (mkStrip ∅ []))).
  { intros o. cbn [requested]. rewrite lookup_empty. discriminate. }
  split; [exact H|]. exact (animation_pass (mkStrip ∅ []) H).
Defined.
